(** * envalidator: a shallow embedding of [src/main.py] and its properties

    Python strings are modelled as lists of code points in the range
    0..255 (Rocq's [ascii]); [py_isspace] and [py_lower] follow Python's
    [str.isspace] and [str.lower] on that range.  A file is read in text
    mode with universal newlines ([translate_newlines]) and iterated line
    by line as [for line in file] does ([py_lines]).  Effects (the file
    system, standard input, the writes performed) are threaded through a
    small state and error monad [M].  Logging and [print] output are not
    modelled. *)

From Stdlib Require Import Ascii String.
From stdpp Require Import base list gmap strings.

Abbreviation str := (list ascii).

(** String literals of the source, as lists of characters. *)
Definition lit (s : string) : str := list_ascii_of_string s.

Definition LF : ascii := ascii_of_nat 10.
Definition CR : ascii := ascii_of_nat 13.

(** ** Character and string primitives *)

(** Python's [str.isspace] on code points 0..255:
    [\t \n \x0b \x0c \r], [\x1c]..[\x1f], space, [\x85], [\xa0]. *)
Definition py_isspace (c : ascii) : bool :=
  let n := nat_of_ascii c in
  ((9 <=? n) && (n <=? 13)) || ((28 <=? n) && (n <=? 32))
  || (n =? 133) || (n =? 160).

(** Python's [str.lower] on code points 0..255: [A]..[Z] and
    [\xc0]..[\xde] except [\xd7] are shifted by 32. *)
Definition py_lower_char (c : ascii) : ascii :=
  let n := nat_of_ascii c in
  if ((65 <=? n) && (n <=? 90)) || ((192 <=? n) && (n <=? 222) && negb (n =? 215))
  then ascii_of_nat (n + 32) else c.

Definition py_lower (s : str) : str := map py_lower_char s.

Fixpoint lstrip (s : str) : str :=
  match s with
  | [] => []
  | c :: s' => if py_isspace c then lstrip s' else s
  end.

Fixpoint rstrip (s : str) : str :=
  match s with
  | [] => []
  | c :: s' =>
      match rstrip s' with
      | [] => if py_isspace c then [] else [c]
      | r => c :: r
      end
  end.

(** [str.strip()] with no argument. *)
Definition strip (s : str) : str := rstrip (lstrip s).

(** Truthiness of a Python string: non-empty. *)
Definition py_truthy (s : str) : bool :=
  match s with [] => false | _ => true end.

(** [s.startswith("#")]. *)
Definition startswith_hash (s : str) : bool :=
  match s with
  | c :: _ => Ascii.eqb c "#"%char
  | [] => false
  end.

(** [s.split("=", 1)]: one piece when [s] has no [=], otherwise the part
    before the first [=] and the rest. *)
Fixpoint split_eq1 (s : str) : list str :=
  match s with
  | [] => [[]]
  | c :: s' =>
      if Ascii.eqb c "="%char then [[]; s']
      else match split_eq1 s' with
           | h :: t => (c :: h) :: t
           | [] => [[c]]
           end
  end.

(** Universal newline translation of text-mode reading: ["\r\n"] and a
    lone ["\r"] both become ["\n"]. *)
Fixpoint translate_newlines (s : str) : str :=
  match s with
  | [] => []
  | c :: s1 =>
      if Ascii.eqb c CR then
        match s1 with
        | d :: s2 =>
            if Ascii.eqb d LF then LF :: translate_newlines s2
            else LF :: translate_newlines s1
        | [] => [LF]
        end
      else c :: translate_newlines s1
  end.

(** The lines produced by iterating over a file object: each line keeps
    its terminating ["\n"], the last one has none if the text does not
    end in a newline, and there is no empty trailing line. *)
Fixpoint py_lines (s : str) : list str :=
  match s with
  | [] => []
  | c :: s' =>
      if Ascii.eqb c LF then [LF] :: py_lines s'
      else match py_lines s' with
           | [] => [[c]]
           | l :: ls => (c :: l) :: ls
           end
  end.

Definition file_lines (content : str) : list str :=
  py_lines (translate_newlines content).

(** The pieces of a text between its newlines (there is always at least
    one, possibly empty); [py_lines] is recovered from them by
    [lines_of_segments] (see [py_lines_segments]). *)
Fixpoint segments (s : str) : list str :=
  match s with
  | [] => [[]]
  | c :: s' =>
      if Ascii.eqb c LF then [] :: segments s'
      else match segments s' with
           | seg :: segs => (c :: seg) :: segs
           | [] => [[c]]
           end
  end.

Fixpoint lines_of_segments (segs : list str) : list str :=
  match segs with
  | [] => []
  | seg :: rest =>
      match rest with
      | [] => match seg with [] => [] | _ => [seg] end
      | _ => (seg ++ [LF]) :: lines_of_segments rest
      end
  end.

(** ** Pure parts of the readers *)

(** One iteration of the loop of [get_env_keys].  [split] always returns
    at least one piece, so the index [[0]] never fails. *)
Definition env_keys_step (keys : gset str) (line : str) : gset str :=
  let line := strip line in
  if py_truthy line && negb (startswith_hash line) then
    let key := strip (default [] (head (split_eq1 line))) in
    {[ key ]} ∪ keys
  else keys.

Definition keys_of_text (content : str) : gset str :=
  foldl env_keys_step ∅ (file_lines content).

Inductive py_error :=
| FileNotFoundError   (* FileAccessError of the spec *)
| ValueError          (* ParseError of the spec: failed unpacking *)
| EOFError.           (* end of standard input in [input()] *)

(** One iteration of the loop of [find_empty_keys]: [key, value =
    line.split("=", 1)] raises [ValueError] unless there are two pieces. *)
Definition empty_keys_step (empty_keys : gset str) (line : str)
  : py_error + gset str :=
  let line := strip line in
  if py_truthy line && negb (startswith_hash line) then
    match split_eq1 line with
    | [key; value] =>
        let key := strip key in
        let value := strip value in
        if negb (py_truthy value) then inr ({[ key ]} ∪ empty_keys)
        else inr empty_keys
    | _ => inl ValueError
    end
  else inr empty_keys.

Fixpoint empty_keys_loop (empty_keys : gset str) (lines : list str)
  : py_error + gset str :=
  match lines with
  | [] => inr empty_keys
  | line :: rest =>
      match empty_keys_step empty_keys line with
      | inl e => inl e
      | inr acc => empty_keys_loop acc rest
      end
  end.

Definition empty_keys_of_text (content : str) : py_error + gset str :=
  empty_keys_loop ∅ (file_lines content).

(** [get_missing_keys]: [source_keys - target_keys]. *)
Definition get_missing_keys (source_keys target_keys : gset str) : gset str :=
  source_keys ∖ target_keys.

(** The loop of [confirm_action] over the lines of standard input;
    [input()] raises [EOFError] once the input is exhausted. *)
Fixpoint confirm_loop (inp : list str) : py_error + (bool * list str) :=
  match inp with
  | [] => inl EOFError
  | line :: rest =>
      let choice := strip (py_lower line) in
      if bool_decide (choice ∈ [lit "y"; lit "yes"]) then inr (true, rest)
      else if bool_decide (choice ∈ [lit "n"; lit "no"; []]) then inr (false, rest)
      else confirm_loop rest
  end.

(** ** The world and the effect monad *)

Inductive open_mode := ModeW | ModeA.

(** The mutations of the file system the program performs, in order. *)
Inductive event :=
| EvOpen (path : str) (mode : open_mode)
| EvWrite (path data : str).

Record world := mk_world {
  fs : gmap str str;       (* path -> file contents *)
  stdin : list str;        (* remaining lines of standard input *)
  trace : list event       (* opens for writing and writes so far *)
}.

Definition M (A : Type) : Type := world -> py_error + (A * world).

Global Instance M_ret : MRet M := fun A x w => inr (x, w).

Global Instance M_bind : MBind M := fun A B k m w =>
  match m w with
  | inl e => inl e
  | inr (x, w') => k x w'
  end.

Fixpoint for_each {A} (f : A -> M unit) (l : list A) : M unit :=
  match l with
  | [] => mret tt
  | x :: l' => f x ;; for_each f l'
  end.

(** A computation that raises [e] on [inl e] and returns [x] on [inr x]. *)
Definition of_result {A} (r : py_error + A) : M A :=
  fun w => match r with
           | inl e => inl e
           | inr x => inr (x, w)
           end.

(** [os.path.exists(path)]. *)
Definition path_exists (p : str) : M bool :=
  fun w => inr (bool_decide (is_Some (fs w !! p)), w).

(** [open(path, "r")] followed by reading the whole file. *)
Definition read_file (p : str) : M str :=
  fun w => match fs w !! p with
           | Some c => inr (c, w)
           | None => inl FileNotFoundError
           end.

(** [open(path, "w")]: create or truncate. *)
Definition open_write (p : str) : M unit :=
  fun w => inr (tt, mk_world (<[p := []]> (fs w)) (stdin w)
                              (trace w ++ [EvOpen p ModeW])).

(** [open(path, "a")]: create if missing, keep the contents. *)
Definition open_append (p : str) : M unit :=
  fun w => inr (tt, mk_world (<[p := default [] (fs w !! p)]> (fs w)) (stdin w)
                              (trace w ++ [EvOpen p ModeA])).

(** [f.write(data)] on a file opened for writing or appending: the data
    goes to the end of the file. *)
Definition write_file (p data : str) : M unit :=
  fun w => inr (tt, mk_world (<[p := default [] (fs w !! p) ++ data]> (fs w))
                              (stdin w) (trace w ++ [EvWrite p data])).

(** ** The functions of [main.py] *)

(** [get_env_keys(file_path)]. *)
Definition get_env_keys (file_path : str) : M (gset str) :=
  content ← read_file file_path ;
  mret (keys_of_text content).

(** [find_empty_keys(file_path)]. *)
Definition find_empty_keys (file_path : str) : M (gset str) :=
  content ← read_file file_path ;
  of_result (empty_keys_of_text content).

(** [confirm_action(message)]: the prompt and the hint printed on a
    re-prompt are output only. *)
Definition confirm_action : M bool :=
  fun w => match confirm_loop (stdin w) with
           | inl e => inl e
           | inr (b, rest) => inr (b, mk_world (fs w) rest (trace w))
           end.

Record args := mk_args {
  env_file : str;
  example_file : str;
  init : bool;
  fix_ : bool;  (* [args.fix]; [fix] is a keyword *)
  approve : bool
}.

(** The text [f"{key}=\n"]. *)
Definition key_line (key : str) : str := key ++ lit "=" ++ [LF].

(** The text ["\n# Added by envalidator\n"]. *)
Definition added_marker : str := [LF] ++ lit "# Added by envalidator" ++ [LF].

(** The warnings [main] logs: the missing keys of the example file, and
    the keys of the env file with an empty value. *)
Inductive warning :=
| MissingKeysWarning (example_file_path : str) (missing_keys : gset str)
| EmptyKeysWarning (env_file_path : str) (empty_keys : gset str).

Section Iteration.

(** The order in which a Python [set] is iterated is not specified: it is
    any enumeration of the set's elements. *)
Variable set_iter : gset str -> list str.

(** [init_env_file(args)]: as in the source, everything after the
    existence test is in the body of [if os.path.exists(env_file_path)]. *)
Definition init_env_file (a : args) : M unit :=
  env_exists ← path_exists (env_file a) ;
  if (env_exists : bool) then
    proceed ← (if approve a then mret true else confirm_action) ;
    if negb (proceed : bool) then mret tt
    else
      example_keys ← get_env_keys (example_file a) ;
      open_write (env_file a) ;;
      for_each (fun key => write_file (env_file a) (key_line key))
               (set_iter example_keys)
  else mret tt.

(** [fix_missing_keys(env_file_path, example_file_path)]. *)
Definition fix_missing_keys (env_file_path example_file_path : str) : M unit :=
  env_keys ← get_env_keys env_file_path ;
  example_keys ← get_env_keys example_file_path ;
  let missing_keys := get_missing_keys env_keys example_keys in
  if bool_decide (missing_keys = ∅) then mret tt
  else
    open_append example_file_path ;;
    write_file example_file_path added_marker ;;
    for_each (fun key => write_file example_file_path (key_line key))
             (set_iter missing_keys).

(** [main()], after [init_parser()] has turned the command line into
    [a].  The two [logging.warning] calls are the results of [main]: the
    list holds the warnings it logs, in order. *)
Definition main (a : args) : M (list warning) :=
  (if init a then init_env_file a else mret tt) ;;
  env_keys ← get_env_keys (env_file a) ;
  example_keys ← get_env_keys (example_file a) ;
  let missing_keys := get_missing_keys env_keys example_keys in
  let missing_warning :=
    if bool_decide (missing_keys = ∅) then []
    else [MissingKeysWarning (example_file a) missing_keys] in
  (if fix_ a then fix_missing_keys (env_file a) (example_file a) else mret tt) ;;
  empty_keys ← find_empty_keys (env_file a) ;
  mret (missing_warning ++
        if bool_decide (empty_keys = ∅) then []
        else [EmptyKeysWarning (env_file a) empty_keys]).

End Iteration.

(** The test and the key expression of the loop of [get_env_keys], on one
    raw line. *)
Definition is_key_line (line : str) : bool :=
  py_truthy (strip line) && negb (startswith_hash (strip line)).

Definition env_line_key (line : str) : str :=
  strip (default [] (head (split_eq1 (strip line)))).

(** ** Vocabulary of the specification *)

(** A line is a declaration when it is non-empty after trimming and its
    first non-whitespace character is not [#]. *)
Definition is_declaration (l : str) : Prop :=
  strip l ≠ [] ∧ head (lstrip l) ≠ Some "#"%char.

(** [before] is the part of [l] to the left of its first [=], [after]
    the part to its right. *)
Definition first_eq_split (l before after : str) : Prop :=
  l = before ++ "="%char :: after ∧ "="%char ∉ before.

(** The set of keys with an empty value in the lines [ls]: [p] and [s]
    are the key and the value part of a declaration line [l], in the words of
    the specification. *)
Definition empty_key_of (ls : list str) (k : str) : Prop :=
  ∃ l p s, l ∈ ls ∧ is_declaration l ∧ first_eq_split l p s ∧
           strip s = [] ∧ k = strip p.

(** The keys a file can yield: trimmed, without [=], line breaks or a
    leading [#]. *)
Definition file_key (k : str) : Prop :=
  strip k = k ∧ ("="%char ∉ k) ∧ (LF ∉ k) ∧ (CR ∉ k) ∧ startswith_hash k = false.

(** The answer typed at the confirmation prompt, trimmed and lower-cased. *)
Definition answer (l : str) : str := py_lower (strip l).

Definition yes_answer (l : str) : Prop :=
  answer l = lit "y" ∨ answer l = lit "yes".

Definition no_answer (l : str) : Prop :=
  answer l = lit "n" ∨ answer l = lit "no" ∨ answer l = [].

Definition decisive (l : str) : Prop := yes_answer l ∨ no_answer l.

(** ** Sample inputs *)

(** The scenario of the specification: [.env] holds ["A=1\nB=\n#comment\n"]
    and [.env.example] holds ["A=2\n"]. *)
Definition sample_env_text : str :=
  lit "A=1" ++ [LF] ++ lit "B=" ++ [LF] ++ lit "#comment" ++ [LF].

Definition sample_example_text : str := lit "A=2" ++ [LF].

Definition sample_world : world :=
  mk_world {[ lit ".env" := sample_env_text;
              lit ".env.example" := sample_example_text ]} [] [].

(** The same world after the missing key [B] has been appended to
    [.env.example]. *)
Definition sample_fixed_world : world :=
  mk_world (<[lit ".env.example" :=
                sample_example_text ++ added_marker ++ key_line (lit "B")]>
              (fs sample_world))
           []
           [EvOpen (lit ".env.example") ModeA;
            EvWrite (lit ".env.example") added_marker;
            EvWrite (lit ".env.example") (key_line (lit "B"))].

(** The input of the initialisation scenario: only [.env.example] exists,
    holding ["A=1\nB=2\n"]. *)
Definition init_sample_world : world :=
  mk_world {[ lit ".env.example" := lit "A=1" ++ [LF] ++ lit "B=2" ++ [LF] ]} [] [].

Definition init_sample_args : args :=
  mk_args (lit ".env") (lit ".env.example") true false true.

(** A world with one file [path] holding [content]. *)
Definition one_file_world (path content : str) : world :=
  mk_world {[ path := content ]} [] [].

(** * Lemmas *)

(** Closes a decidable goal on concrete data by evaluation. *)
Ltac eval_decide := apply (bool_decide_unpack _); vm_compute; exact I.

(** ** Trimming *)

Section Strip.

Implicit Types (s l p q r : str) (c : ascii).

Lemma lstrip_app_nonspace p c s :
  py_isspace c = false → lstrip (p ++ c :: s) = lstrip p ++ c :: s.
Proof.
  intros Hc. induction p as [|a p IH]; simpl.
  - by rewrite Hc.
  - destruct (py_isspace a); [exact IH|reflexivity].
Qed.

Lemma rstrip_app_nonspace q c s :
  py_isspace c = false → rstrip (q ++ c :: s) = q ++ c :: rstrip s.
Proof.
  intros Hc. induction q as [|a q IH]; simpl.
  - destruct (rstrip s); [by rewrite Hc|reflexivity].
  - rewrite IH. destruct q; reflexivity.
Qed.

Lemma rstrip_cons_nonspace c s :
  py_isspace c = false → rstrip (c :: s) = c :: rstrip s.
Proof. intros Hc. exact (rstrip_app_nonspace [] c s Hc). Qed.

Lemma lstrip_nil_iff l :
  lstrip l = [] ↔ Forall (λ c, py_isspace c = true) l.
Proof.
  induction l as [|c l IH]; simpl.
  - split; constructor.
  - rewrite Forall_cons. destruct (py_isspace c) eqn:Hc.
    + rewrite IH. naive_solver.
    + split; [discriminate|intros [? _]; discriminate].
Qed.

Lemma rstrip_nil_iff l :
  rstrip l = [] ↔ Forall (λ c, py_isspace c = true) l.
Proof.
  induction l as [|c l IH]; simpl.
  - split; constructor.
  - rewrite Forall_cons. destruct (rstrip l) as [|a r] eqn:Hr.
    + destruct (py_isspace c) eqn:Hc.
      * split; [intros _; split; [done|by apply IH]|done].
      * split; [discriminate|intros [? _]; discriminate].
    + split; [discriminate|]. intros [_ Hl]. apply IH in Hl. discriminate.
Qed.

Lemma Forall_space_lstrip l :
  Forall (λ c, py_isspace c = true) (lstrip l) ↔
  Forall (λ c, py_isspace c = true) l.
Proof.
  induction l as [|c l IH]; simpl; [done|].
  rewrite Forall_cons. destruct (py_isspace c) eqn:Hc.
  - rewrite IH. naive_solver.
  - rewrite Forall_cons. rewrite Hc. naive_solver.
Qed.

Lemma strip_nil_iff l :
  strip l = [] ↔ Forall (λ c, py_isspace c = true) l.
Proof. unfold strip. by rewrite rstrip_nil_iff, Forall_space_lstrip. Qed.

Lemma Forall_space_rstrip l :
  Forall (λ c, py_isspace c = true) (rstrip l) → rstrip l = [].
Proof.
  induction l as [|c l IH]; simpl; [done|].
  destruct (rstrip l) as [|a r] eqn:Hr.
  - destruct (py_isspace c) eqn:Hc; [done|].
    intros Hf. apply Forall_cons in Hf as [H _]. congruence.
  - intros Hf. apply Forall_cons in Hf as [_ Hf]. by specialize (IH Hf).
Qed.

Lemma lstrip_cases l :
  lstrip l = [] ∨ ∃ c r, lstrip l = c :: r ∧ py_isspace c = false.
Proof.
  induction l as [|c l IH]; simpl; [by left|].
  destruct (py_isspace c) eqn:Hc; [exact IH|right; eauto].
Qed.

Lemma strip_lstrip_cons l c r :
  lstrip l = c :: r → py_isspace c = false → strip l = c :: rstrip r.
Proof. intros Hl Hc. unfold strip. rewrite Hl. by apply rstrip_cons_nonspace. Qed.

Lemma lstrip_idem l : lstrip (lstrip l) = lstrip l.
Proof.
  destruct (lstrip_cases l) as [->|(c & r & -> & Hc)]; [done|].
  simpl. by rewrite Hc.
Qed.

Lemma rstrip_cons c s :
  rstrip (c :: s) =
  match rstrip s with
  | [] => if py_isspace c then [] else [c]
  | r => c :: r
  end.
Proof. reflexivity. Qed.

Lemma rstrip_idem l : rstrip (rstrip l) = rstrip l.
Proof.
  induction l as [|c l IH]; [done|].
  rewrite (rstrip_cons c l).
  destruct (rstrip l) as [|a r] eqn:Hr.
  - destruct (py_isspace c) eqn:Hc; simpl; [done|by rewrite Hc].
  - by rewrite rstrip_cons, IH.
Qed.

Lemma strip_idem l : strip (strip l) = strip l.
Proof.
  unfold strip at 2 3.
  destruct (lstrip_cases l) as [Hl|(c & r & Hl & Hc)].
  - by rewrite Hl.
  - rewrite Hl, rstrip_cons_nonspace by done.
    unfold strip. simpl. rewrite Hc, rstrip_cons_nonspace by done.
    by rewrite rstrip_idem.
Qed.

Lemma strip_lstrip l : strip (lstrip l) = strip l.
Proof. unfold strip. by rewrite lstrip_idem. Qed.

Lemma elem_of_lstrip x l : x ∈ lstrip l → x ∈ l.
Proof.
  induction l as [|c l IH]; simpl; [done|].
  destruct (py_isspace c); [set_solver|done].
Qed.

Lemma elem_of_rstrip x l : x ∈ rstrip l → x ∈ l.
Proof.
  induction l as [|c l IH]; simpl; [done|].
  destruct (rstrip l) as [|a r] eqn:Hr.
  - destruct (py_isspace c); set_solver.
  - set_solver.
Qed.

Lemma elem_of_strip x l : x ∈ strip l → x ∈ l.
Proof. unfold strip. intros H. by apply elem_of_lstrip, elem_of_rstrip. Qed.

End Strip.

(** ** Splitting on the first [=] *)

Section Split.

Implicit Types (s l p q : str) (c : ascii).

Lemma eq_char_nonspace : py_isspace "="%char = false.
Proof. reflexivity. Qed.

Lemma split_eq1_app p s :
  "="%char ∉ p → split_eq1 (p ++ "="%char :: s) = [p; s].
Proof.
  induction p as [|a p IH]; intros Hp; simpl; [done|].
  destruct (Ascii.eqb_spec a "="%char) as [->|Ha]; [set_solver|].
  rewrite IH by set_solver. done.
Qed.

Lemma split_eq1_no_eq l : "="%char ∉ l → split_eq1 l = [l].
Proof.
  induction l as [|a l IH]; intros Hl; simpl; [done|].
  destruct (Ascii.eqb_spec a "="%char) as [->|Ha]; [set_solver|].
  rewrite IH by set_solver. done.
Qed.

Lemma first_eq_split_exists l :
  "="%char ∈ l → ∃ p s, first_eq_split l p s.
Proof.
  intros H. destruct (list_elem_of_split_l l _ H) as (p & s & -> & Hp).
  exists p, s. done.
Qed.

Lemma first_eq_split_strip l p s :
  first_eq_split l p s → strip l = lstrip p ++ "="%char :: rstrip s.
Proof.
  intros [-> _]. unfold strip.
  rewrite lstrip_app_nonspace, rstrip_app_nonspace by apply eq_char_nonspace.
  done.
Qed.

Lemma env_line_key_split l p s :
  first_eq_split l p s → env_line_key l = strip p.
Proof.
  intros Hs. unfold env_line_key. rewrite (first_eq_split_strip _ _ _ Hs).
  destruct Hs as [_ Hp].
  rewrite split_eq1_app by (intros Hx; apply Hp, elem_of_lstrip, Hx).
  apply strip_lstrip.
Qed.

Lemma env_line_key_no_eq l :
  "="%char ∉ l → env_line_key l = strip l.
Proof.
  intros Hl. unfold env_line_key.
  rewrite split_eq1_no_eq by (intros Hx; apply Hl, elem_of_strip, Hx).
  apply strip_idem.
Qed.

Lemma is_key_line_spec l : is_key_line l = true ↔ is_declaration l.
Proof.
  unfold is_key_line, is_declaration.
  destruct (lstrip_cases l) as [Hl|(c & r & Hl & Hc)].
  - unfold strip. rewrite Hl. simpl. naive_solver.
  - rewrite (strip_lstrip_cons l c r Hl Hc), Hl. simpl.
    destruct (Ascii.eqb_spec c "#"%char) as [->|Hn]; simpl; naive_solver.
Qed.

End Split.

Lemma first_eq_split_unique l p s p' s' :
  first_eq_split l p s → first_eq_split l p' s' → p = p' ∧ s = s'.
Proof.
  intros [-> Hp] [Heq Hp']. revert p' Hp' Heq.
  induction p as [|a p IH]; intros [|a' p'] Hp' Heq; simpl in Heq.
  - by injection Heq.
  - injection Heq as <- _. set_solver.
  - injection Heq as -> _. set_solver.
  - injection Heq as <- Heq.
    destruct (IH ltac:(set_solver) p' ltac:(set_solver) Heq) as [-> ->]. done.
Qed.

(** ** The loops of the two readers *)

Section Readers.

Implicit Types (l p s : str) (ls : list str) (acc : gset str).

Lemma env_keys_step_eq acc l :
  env_keys_step acc l =
  if is_key_line l then {[ env_line_key l ]} ∪ acc else acc.
Proof. reflexivity. Qed.

Lemma elem_of_foldl_env_keys acc ls k :
  k ∈ foldl env_keys_step acc ls ↔
  k ∈ acc ∨ ∃ l, l ∈ ls ∧ is_declaration l ∧ k = env_line_key l.
Proof.
  revert acc. induction ls as [|l ls IH]; intros acc; simpl.
  - split; [by left|]. intros [?|(? & H & _)]; [done|set_solver].
  - rewrite IH, env_keys_step_eq.
    destruct (is_key_line l) eqn:Hl.
    + apply is_key_line_spec in Hl.
      rewrite elem_of_union, elem_of_singleton.
      split.
      * intros [[->|?]|(l' & ? & ? & ->)]; [right; exists l; set_solver|by left|].
        right. exists l'. set_solver.
      * intros [?|(l' & Hin & ? & ->)]; [by left; right|].
        apply elem_of_cons in Hin as [->|?]; [by left; left|].
        right. eauto.
    + assert (¬ is_declaration l) as Hn.
      { rewrite <- is_key_line_spec. by rewrite Hl. }
      split.
      * intros [?|(l' & ? & ? & ->)]; [by left|]. right. exists l'. set_solver.
      * intros [?|(l' & Hin & ? & ->)]; [by left|].
        apply elem_of_cons in Hin as [->|?]; [done|]. right. eauto.
Qed.

Lemma elem_of_keys_of_text content k :
  k ∈ keys_of_text content ↔
  ∃ l, l ∈ file_lines content ∧ is_declaration l ∧ k = env_line_key l.
Proof.
  unfold keys_of_text. rewrite elem_of_foldl_env_keys. set_solver.
Qed.

Lemma empty_keys_step_split acc l p s :
  is_declaration l → first_eq_split l p s →
  empty_keys_step acc l =
  inr (if decide (strip s = []) then {[ strip p ]} ∪ acc else acc).
Proof.
  intros Hd Hs. pose proof (proj2 (is_key_line_spec l) Hd) as Hk.
  unfold is_key_line in Hk. unfold empty_keys_step. rewrite Hk.
  rewrite (first_eq_split_strip _ _ _ Hs).
  destruct Hs as [_ Hp].
  rewrite split_eq1_app by (intros Hx; apply Hp, elem_of_lstrip, Hx).
  rewrite strip_lstrip.
  assert (strip (rstrip s) = [] ↔ strip s = []) as Hv.
  { rewrite !strip_nil_iff. split.
    - intros H. apply rstrip_nil_iff, Forall_space_rstrip, H.
    - intros H. apply rstrip_nil_iff in H. rewrite H. constructor. }
  destruct (decide (strip s = [])) as [Hz|Hz].
  - apply Hv in Hz. by rewrite Hz.
  - destruct (strip (rstrip s)) eqn:Hr; [tauto|done].
Qed.

Lemma empty_keys_step_no_eq acc l :
  is_declaration l → "="%char ∉ l → empty_keys_step acc l = inl ValueError.
Proof.
  intros Hd Hl. pose proof (proj2 (is_key_line_spec l) Hd) as Hk.
  unfold is_key_line in Hk. unfold empty_keys_step. rewrite Hk.
  rewrite split_eq1_no_eq by (intros Hx; apply Hl, elem_of_strip, Hx).
  done.
Qed.

Lemma empty_keys_step_skip acc l :
  ¬ is_declaration l → empty_keys_step acc l = inr acc.
Proof.
  intros Hd. unfold empty_keys_step.
  destruct (py_truthy (strip l) && negb (startswith_hash (strip l))) eqn:Hk;
    [|done].
  exfalso. apply Hd, is_key_line_spec, Hk.
Qed.

Lemma empty_keys_loop_cases acc ls :
  (empty_keys_loop acc ls = inl ValueError ∧
     ∃ l, l ∈ ls ∧ is_declaration l ∧ "="%char ∉ l)
  ∨ (∃ K, empty_keys_loop acc ls = inr K ∧
       (∀ l, l ∈ ls → is_declaration l → "="%char ∈ l) ∧
       ∀ k, k ∈ K ↔ k ∈ acc ∨ empty_key_of ls k).
Proof.
  unfold empty_key_of.
  revert acc. induction ls as [|l ls IH]; intros acc; simpl.
  - right. exists acc. split; [done|]. split; [set_solver|].
    intros k. split; [by left|]. intros [?|(? & ? & ? & H & _)]; [done|set_solver].
  - destruct (decide (is_declaration l)) as [Hd|Hd].
    + destruct (decide ("="%char ∈ l)) as [He|He].
      * destruct (first_eq_split_exists l He) as (p & s & Hs).
        rewrite (empty_keys_step_split acc l p s Hd Hs).
        destruct (IH (if decide (strip s = []) then {[ strip p ]} ∪ acc else acc))
          as [[Herr (l' & ? & ? & ?)]|(K & HK & Hall & Hmem)].
        { left. split; [done|]. exists l'. split_and!; [set_solver|done..]. }
        right. exists K. split; [done|]. split.
        { intros l' Hin Hd'. apply elem_of_cons in Hin as [->|Hin]; [done|].
          by apply Hall. }
        intros k. rewrite Hmem. split.
        -- intros [Hk|(l' & p' & s' & Hin & Hd' & Hs' & Hz & ->)].
           ++ revert Hk. case_decide as Hz; intros Hk; [|by left].
              apply elem_of_union in Hk as [Hk|Hk]; [|by left].
              apply elem_of_singleton in Hk as ->.
              right. exists l, p, s. split_and!; [set_solver|done..].
           ++ right. exists l', p', s'. split_and!; [set_solver|done..].
        -- intros [Hk|(l' & p' & s' & Hin & Hd' & Hs' & Hz & ->)].
           ++ left. case_decide; set_solver.
           ++ apply elem_of_cons in Hin as [->|Hin].
              ** destruct (first_eq_split_unique _ _ _ _ _ Hs Hs') as [<- <-].
                 left. rewrite decide_True by done. set_solver.
              ** right. exists l', p', s'. done.
      * rewrite empty_keys_step_no_eq by done. left. split; [done|].
        exists l. split_and!; [set_solver|done..].
    + rewrite empty_keys_step_skip by done.
      destruct (IH acc) as [[Herr (l' & ? & ? & ?)]|(K & HK & Hall & Hmem)].
      { left. split; [done|]. exists l'. split_and!; [set_solver|done..]. }
      right. exists K. split; [done|]. split.
      { intros l' Hin Hd'. apply elem_of_cons in Hin as [->|Hin]; [done|].
        by apply Hall. }
      intros k. rewrite Hmem. split.
      * intros [?|(l' & p' & s' & Hin & ?)]; [by left|].
        right. exists l', p', s'. split; [set_solver|done].
      * intros [?|(l' & p' & s' & Hin & Hd' & ?)]; [by left|].
        apply elem_of_cons in Hin as [->|Hin]; [done|].
        right. exists l', p', s'. done.
Qed.

End Readers.

Lemma key_part_no_eq x : "="%char ∉ default [] (head (split_eq1 x)).
Proof.
  induction x as [|a x IH]; simpl; [set_solver|].
  destruct (Ascii.eqb_spec a "="%char) as [->|Ha]; [set_solver|].
  destruct (split_eq1 x) as [|h t]; simpl in *; set_solver.
Qed.

Lemma env_line_key_no_eq_char l : "="%char ∉ env_line_key l.
Proof.
  unfold env_line_key. intros Hx. apply elem_of_strip in Hx.
  exact (key_part_no_eq _ Hx).
Qed.

(** ** Running the readers *)

Section Run.

Implicit Types (w : world) (p content : str).

Lemma get_env_keys_run w p content :
  fs w !! p = Some content → get_env_keys p w = inr (keys_of_text content, w).
Proof.
  intros H. unfold get_env_keys, mbind, M_bind, read_file. by rewrite H.
Qed.

Lemma get_env_keys_inv w p K w' :
  get_env_keys p w = inr (K, w') →
  ∃ content, fs w !! p = Some content ∧ K = keys_of_text content ∧ w' = w.
Proof.
  unfold get_env_keys, mbind, M_bind, read_file.
  destruct (fs w !! p) as [c|]; [|discriminate].
  intros [= <- <-]. eauto.
Qed.

Lemma find_empty_keys_run w p content :
  fs w !! p = Some content →
  find_empty_keys p w =
  match empty_keys_of_text content with
  | inl e => inl e
  | inr K => inr (K, w)
  end.
Proof.
  intros H. unfold find_empty_keys, mbind, M_bind, read_file, of_result.
  by rewrite H.
Qed.

Lemma find_empty_keys_inv w p E w' :
  find_empty_keys p w = inr (E, w') →
  ∃ content, fs w !! p = Some content ∧
             empty_keys_of_text content = inr E ∧ w' = w.
Proof.
  unfold find_empty_keys, mbind, M_bind, read_file, of_result.
  destruct (fs w !! p) as [c|]; [|discriminate].
  destruct (empty_keys_of_text c) eqn:He; simpl; [discriminate|].
  intros [= <- <-]. exists c. done.
Qed.

End Run.

(** * Properties of the program *)

(** ** Key Extractor *)

(** C1 (corrected): a declaration line without [=] does not make
    [get_env_keys] fail: on a file holding ["FOO\n"] it returns
    [{"FOO"}], although the line is non-blank, not a comment and has no
    [=]. *)
Lemma get_env_keys_line_without_eq_counterexample :
  (∃ l, l ∈ file_lines (lit "FOO" ++ [LF]) ∧ is_declaration l ∧ "="%char ∉ l) ∧
  get_env_keys (lit ".env") (one_file_world (lit ".env") (lit "FOO" ++ [LF])) =
  inr ({[ lit "FOO" ]}, one_file_world (lit ".env") (lit "FOO" ++ [LF])).
Proof.
  split; [|reflexivity].
  exists (lit "FOO" ++ [LF]). split_and!.
  - vm_compute. left.
  - apply is_key_line_spec. reflexivity.
  - eval_decide.
Qed.

(** C1 (amended): [get_env_keys] fails only when the file is missing; on
    an existing file it returns, and every non-blank, non-comment line
    without [=] contributes its whole trimmed text as a key. *)
Lemma get_env_keys_accepts_line_without_eq (w : world) (p content : str) :
  fs w !! p = Some content →
  get_env_keys p w = inr (keys_of_text content, w) ∧
  ∀ l, l ∈ file_lines content → is_declaration l → "="%char ∉ l →
       strip l ∈ keys_of_text content.
Proof.
  intros H. split; [by apply get_env_keys_run|].
  intros l Hin Hd He. apply elem_of_keys_of_text.
  exists l. split_and!; [done|done|]. by rewrite env_line_key_no_eq.
Qed.

Lemma get_env_keys_accepts_line_without_eq_witness :
  fs (one_file_world (lit ".env") (lit "FOO" ++ [LF])) !! lit ".env"
    = Some (lit "FOO" ++ [LF]) ∧
  (get_env_keys (lit ".env") (one_file_world (lit ".env") (lit "FOO" ++ [LF]))
   = inr (keys_of_text (lit "FOO" ++ [LF]),
          one_file_world (lit ".env") (lit "FOO" ++ [LF])) ∧
   ∀ l, l ∈ file_lines (lit "FOO" ++ [LF]) → is_declaration l → "="%char ∉ l →
        strip l ∈ keys_of_text (lit "FOO" ++ [LF])).
Proof.
  split; [reflexivity|].
  apply (get_env_keys_accepts_line_without_eq
           (one_file_world (lit ".env") (lit "FOO" ++ [LF])) (lit ".env")).
  reflexivity.
Defined.

(** C3: when every non-blank, non-comment line of the file has an [=],
    [get_env_keys] returns exactly the trimmed parts to the left of the
    first [=] of those lines; on the scenario of the specification it
    returns [{A, B}] for ["A=1\nB=\n#comment\n"] and [{A}] for ["A=2\n"]. *)
Lemma get_env_keys_exact (w : world) (p content : str) :
  fs w !! p = Some content →
  (∀ l, l ∈ file_lines content → is_declaration l → "="%char ∈ l) →
  (∃ K, get_env_keys p w = inr (K, w) ∧
        ∀ k, k ∈ K ↔ ∃ l before after, l ∈ file_lines content ∧
                     is_declaration l ∧ first_eq_split l before after ∧
                     k = strip before) ∧
  get_env_keys (lit ".env") sample_world = inr ({[ lit "A"; lit "B" ]}, sample_world) ∧
  get_env_keys (lit ".env.example") sample_world = inr ({[ lit "A" ]}, sample_world).
Proof.
  intros Hp Hall. split_and!; [|reflexivity|reflexivity].
  exists (keys_of_text content). split; [by apply get_env_keys_run|].
  intros k. rewrite elem_of_keys_of_text. split.
  - intros (l & Hin & Hd & ->).
    destruct (first_eq_split_exists l (Hall l Hin Hd)) as (b & a & Hs).
    exists l, b, a. split_and!; [done..|]. by apply (env_line_key_split l b a).
  - intros (l & b & a & Hin & Hd & Hs & ->).
    exists l. split_and!; [done..|]. symmetry. by apply (env_line_key_split l b a).
Qed.

Lemma get_env_keys_exact_witness :
  fs sample_world !! lit ".env" = Some sample_env_text ∧
  (∀ l, l ∈ file_lines sample_env_text → is_declaration l → "="%char ∈ l) ∧
  ((∃ K, get_env_keys (lit ".env") sample_world = inr (K, sample_world) ∧
         ∀ k, k ∈ K ↔ ∃ l before after, l ∈ file_lines sample_env_text ∧
                      is_declaration l ∧ first_eq_split l before after ∧
                      k = strip before) ∧
   get_env_keys (lit ".env") sample_world = inr ({[ lit "A"; lit "B" ]}, sample_world) ∧
   get_env_keys (lit ".env.example") sample_world = inr ({[ lit "A" ]}, sample_world)).
Proof.
  assert (Hall : ∀ l, l ∈ file_lines sample_env_text → is_declaration l →
                      "="%char ∈ l).
  { intros l Hin Hd.
    assert (Hl : file_lines sample_env_text =
                 [lit "A=1" ++ [LF]; lit "B=" ++ [LF]; lit "#comment" ++ [LF]])
      by reflexivity.
    rewrite Hl in Hin.
    repeat (apply elem_of_cons in Hin as [->|Hin]);
      [eval_decide|eval_decide|exfalso|set_solver].
    apply is_key_line_spec in Hd. vm_compute in Hd. discriminate. }
  split; [reflexivity|]. split; [exact Hall|].
  apply (get_env_keys_exact sample_world (lit ".env") sample_env_text).
  - reflexivity.
  - exact Hall.
Defined.

(** C4 (corrected): a key need not be non-empty: on a file holding
    ["=x\n"], [get_env_keys] returns the set holding the empty key. *)
Lemma get_env_keys_nonempty_counterexample :
  ¬ (∀ (w : world) (p : str) (K : gset str) (w' : world),
       get_env_keys p w = inr (K, w') →
       ∀ k, k ∈ K → k ≠ [] ∧ strip k = k ∧ "="%char ∉ k).
Proof.
  intros H.
  assert (Hrun : get_env_keys (lit ".env") (one_file_world (lit ".env") (lit "=x" ++ [LF]))
                 = inr ({[ [] ]}, one_file_world (lit ".env") (lit "=x" ++ [LF])))
    by reflexivity.
  destruct (H _ _ _ _ Hrun [] ltac:(set_solver)) as [Hne _]. by apply Hne.
Qed.

(** C4 (amended): every key returned by [get_env_keys] equals its own
    trimmed form and contains no [=] (it may be empty). *)
Lemma get_env_keys_keys_trimmed (w : world) (p : str) (K : gset str) (w' : world) :
  get_env_keys p w = inr (K, w') →
  ∀ k, k ∈ K → strip k = k ∧ "="%char ∉ k.
Proof.
  intros Hrun k Hk. destruct (get_env_keys_inv _ _ _ _ Hrun) as (c & _ & -> & _).
  apply elem_of_keys_of_text in Hk as (l & _ & _ & ->). split.
  - unfold env_line_key. apply strip_idem.
  - apply env_line_key_no_eq_char.
Qed.

Lemma get_env_keys_keys_trimmed_witness :
  get_env_keys (lit ".env") sample_world = inr ({[ lit "A"; lit "B" ]}, sample_world) ∧
  ∀ k, k ∈ ({[ lit "A"; lit "B" ]} : gset str) → strip k = k ∧ "="%char ∉ k.
Proof.
  assert (Hrun : get_env_keys (lit ".env") sample_world
                 = inr ({[ lit "A"; lit "B" ]}, sample_world)) by reflexivity.
  split; [exact Hrun|].
  exact (get_env_keys_keys_trimmed sample_world (lit ".env") _ _ Hrun).
Defined.

(** ** Empty-Value Scanner *)

(** C6: on an existing file, [find_empty_keys] fails with [ValueError]
    (the ParseError of the specification) exactly when some non-blank,
    non-comment line has no [=]; when it succeeds it returns exactly the
    trimmed keys of the non-blank, non-comment lines whose value, the part
    after the first [=], is empty after trimming. *)
Lemma find_empty_keys_spec (w : world) (p content : str) :
  fs w !! p = Some content →
  (find_empty_keys p w = inl ValueError ↔
   ∃ l, l ∈ file_lines content ∧ is_declaration l ∧ "="%char ∉ l) ∧
  (∀ E w', find_empty_keys p w = inr (E, w') →
           ∀ k, k ∈ E ↔ empty_key_of (file_lines content) k).
Proof.
  intros Hp. rewrite (find_empty_keys_run w p content Hp).
  unfold empty_keys_of_text.
  destruct (empty_keys_loop_cases ∅ (file_lines content))
    as [[He Hex]|(K & HK & Hall & Hmem)].
  - rewrite He. split; [tauto|]. intros E w' [=].
  - rewrite HK. split.
    + split; [discriminate|]. intros (l & Hin & Hd & Hn). exfalso.
      by apply Hn, Hall.
    + intros E w' [= <- <-] k. rewrite Hmem. set_solver.
Qed.

Lemma find_empty_keys_spec_witness :
  fs sample_world !! lit ".env" = Some sample_env_text ∧
  ((find_empty_keys (lit ".env") sample_world = inl ValueError ↔
    ∃ l, l ∈ file_lines sample_env_text ∧ is_declaration l ∧ "="%char ∉ l) ∧
   (∀ E w', find_empty_keys (lit ".env") sample_world = inr (E, w') →
            ∀ k, k ∈ E ↔ empty_key_of (file_lines sample_env_text) k)).
Proof.
  split; [reflexivity|].
  apply (find_empty_keys_spec sample_world (lit ".env") sample_env_text).
  reflexivity.
Defined.

(** C7: on a file where both readers succeed, the keys with an empty
    value are among the keys: [EmptyKeys(F) ⊆ ExtractKeys(F)]. *)
Lemma empty_keys_subset_keys (w : world) (p : str) (E K : gset str) (w1 w2 : world) :
  find_empty_keys p w = inr (E, w1) →
  get_env_keys p w = inr (K, w2) →
  E ⊆ K.
Proof.
  intros HE HK.
  destruct (find_empty_keys_inv _ _ _ _ HE) as (c & Hc & He & _).
  destruct (get_env_keys_inv _ _ _ _ HK) as (c' & Hc' & -> & _).
  rewrite Hc in Hc'. injection Hc' as <-.
  unfold empty_keys_of_text in He.
  destruct (empty_keys_loop_cases ∅ (file_lines c))
    as [[Herr _]|(K0 & HK0 & _ & Hmem)]; [congruence|].
  rewrite He in HK0. injection HK0 as <-.
  intros k Hk. apply Hmem in Hk as [Hk|(l & b & a & Hin & Hd & Hs & _ & ->)];
    [set_solver|].
  apply elem_of_keys_of_text. exists l. split_and!; [done|done|].
  symmetry. apply (env_line_key_split l b a Hs).
Qed.

Lemma empty_keys_subset_keys_witness :
  find_empty_keys (lit ".env") sample_world = inr ({[ lit "B" ]}, sample_world) ∧
  get_env_keys (lit ".env") sample_world = inr ({[ lit "A"; lit "B" ]}, sample_world) ∧
  ({[ lit "B" ]} : gset str) ⊆ {[ lit "A"; lit "B" ]}.
Proof.
  assert (H1 : find_empty_keys (lit ".env") sample_world
               = inr ({[ lit "B" ]}, sample_world)) by reflexivity.
  assert (H2 : get_env_keys (lit ".env") sample_world
               = inr ({[ lit "A"; lit "B" ]}, sample_world)) by reflexivity.
  split; [exact H1|]. split; [exact H2|].
  exact (empty_keys_subset_keys sample_world (lit ".env") _ _ _ _ H1 H2).
Defined.

(** ** Set Reconciler *)

(** C8: [get_missing_keys] is the set difference, a pure function of its
    two arguments; hence [A − A = ∅], [A − ∅ = A] and [∅ − B = ∅]. *)
Lemma get_missing_keys_difference (A B : gset str) :
  get_missing_keys A B = A ∖ B ∧
  get_missing_keys A A = ∅ ∧
  get_missing_keys A ∅ = A ∧
  get_missing_keys ∅ B = ∅.
Proof.
  unfold get_missing_keys. split_and!.
  - reflexivity.
  - apply difference_diag_L.
  - apply difference_empty_L.
  - set_solver.
Qed.

(** ** Interactive Confirmation *)

Lemma py_isspace_lower c : py_isspace (py_lower_char c) = py_isspace c.
Proof. destruct c as [[] [] [] [] [] [] [] []]; reflexivity. Qed.

Lemma lstrip_lower s : lstrip (py_lower s) = py_lower (lstrip s).
Proof.
  induction s as [|c s IH]; [done|]. simpl.
  rewrite py_isspace_lower. by destruct (py_isspace c).
Qed.

Lemma rstrip_lower s : rstrip (py_lower s) = py_lower (rstrip s).
Proof.
  induction s as [|c s IH]; [done|].
  change (py_lower (c :: s)) with (py_lower_char c :: py_lower s).
  rewrite !rstrip_cons, IH, py_isspace_lower.
  destruct (rstrip s); [by destruct (py_isspace c)|done].
Qed.

Lemma strip_lower s : strip (py_lower s) = py_lower (strip s).
Proof. unfold strip. by rewrite lstrip_lower, rstrip_lower. Qed.

Lemma confirm_yes_spec l :
  bool_decide (strip (py_lower l) ∈ [lit "y"; lit "yes"]) = true ↔ yes_answer l.
Proof.
  rewrite bool_decide_eq_true, strip_lower. unfold yes_answer, answer.
  set_solver.
Qed.

Lemma confirm_no_spec l :
  bool_decide (strip (py_lower l) ∈ [lit "n"; lit "no"; []]) = true ↔ no_answer l.
Proof.
  rewrite bool_decide_eq_true, strip_lower. unfold no_answer, answer.
  set_solver.
Qed.

Lemma yes_not_no l : yes_answer l → ¬ no_answer l.
Proof.
  unfold yes_answer, no_answer.
  intros [->| ->] [?|[?|?]]; discriminate.
Qed.

Lemma confirm_loop_spec inp b rest :
  confirm_loop inp = inr (b, rest) ↔
  ∃ pre d, inp = pre ++ d :: rest ∧ Forall (λ l, ¬ decisive l) pre ∧
           decisive d ∧ (b = true ↔ yes_answer d).
Proof.
  induction inp as [|l inp IH]; cbn [confirm_loop].
  - split; [discriminate|]. intros (pre & d & Heq & _). by destruct pre.
  - destruct (bool_decide (strip (py_lower l) ∈ [lit "y"; lit "yes"])) eqn:Hy.
    { apply confirm_yes_spec in Hy. split.
      - intros [= <- <-]. exists [], l. split_and!; [done|constructor|by left|done].
      - intros ([|x pre] & d & Heq & Hpre & Hd & Hb); simpl in Heq;
          injection Heq as <- Heq.
        + subst. by rewrite (proj2 Hb Hy).
        + apply Forall_cons in Hpre as [Hx _]. exfalso. apply Hx. by left. }
    destruct (bool_decide (strip (py_lower l) ∈ [lit "n"; lit "no"; []])) eqn:Hn.
    { apply confirm_no_spec in Hn.
      assert (¬ yes_answer l) as Hny.
      { intros Hyes. by apply (yes_not_no l). }
      split.
      - intros [= <- <-]. exists [], l.
        split_and!; [done|constructor|by right|]. split; [discriminate|done].
      - intros ([|x pre] & d & Heq & Hpre & Hd & Hb); simpl in Heq;
          injection Heq as <- Heq.
        + subst. destruct b; [|done]. exfalso. by apply Hny, Hb.
        + apply Forall_cons in Hpre as [Hx _]. exfalso. apply Hx. by right. }
    assert (¬ decisive l) as Hl.
    { intros [Hyes|Hno].
      - apply confirm_yes_spec in Hyes. congruence.
      - apply confirm_no_spec in Hno. congruence. }
    rewrite IH. split.
    + intros (pre & d & -> & Hpre & Hd & Hb). exists (l :: pre), d.
      split_and!; [done|by constructor|done|done].
    + intros ([|x pre] & d & Heq & Hpre & Hd & Hb); simpl in Heq;
        injection Heq as <- Heq; [done|].
      apply Forall_cons in Hpre as [_ Hpre]. exists pre, d. done.
Qed.

Lemma confirm_loop_error inp e :
  confirm_loop inp = inl e ↔ e = EOFError ∧ Forall (λ l, ¬ decisive l) inp.
Proof.
  induction inp as [|l inp IH]; cbn [confirm_loop].
  - split; [intros [= <-]; done|intros [-> _]; done].
  - destruct (bool_decide (strip (py_lower l) ∈ [lit "y"; lit "yes"])) eqn:Hy.
    { apply confirm_yes_spec in Hy. split; [discriminate|].
      intros [_ Hf]. apply Forall_cons in Hf as [Hx _]. by destruct Hx; left. }
    destruct (bool_decide (strip (py_lower l) ∈ [lit "n"; lit "no"; []])) eqn:Hn.
    { apply confirm_no_spec in Hn. split; [discriminate|].
      intros [_ Hf]. apply Forall_cons in Hf as [Hx _]. by destruct Hx; right. }
    assert (¬ decisive l) as Hl.
    { intros [Hyes|Hno].
      - apply confirm_yes_spec in Hyes. congruence.
      - apply confirm_no_spec in Hno. congruence. }
    rewrite IH, Forall_cons. tauto.
Qed.

(** C9: [confirm_action] answers according to the first decisive line of
    standard input: it returns [true] when that line, trimmed and
    lower-cased, is [y] or [yes], and [false] when it is [n], [no] or
    empty; every earlier line was not decisive and only re-prompted.  It
    returns only if such a line occurs: on an input without one it ends
    in [EOFError] once the input is exhausted. *)
Lemma confirm_action_first_decisive (w : world) :
  (∀ b w', confirm_action w = inr (b, w') ↔
     ∃ pre d rest, stdin w = pre ++ d :: rest ∧
                   Forall (λ l, ¬ decisive l) pre ∧ decisive d ∧
                   (b = true ↔ yes_answer d) ∧
                   w' = mk_world (fs w) rest (trace w)) ∧
  (∀ e, confirm_action w = inl e ↔
     e = EOFError ∧ Forall (λ l, ¬ decisive l) (stdin w)).
Proof.
  unfold confirm_action. split.
  - intros b w'. destruct (confirm_loop (stdin w)) as [e|[b0 rest0]] eqn:Hc.
    + split; [discriminate|]. intros (pre & d & rest & Heq & Hpre & Hd & Hb & _).
      assert (confirm_loop (stdin w) = inr (b, rest)) as Hc'.
      { apply confirm_loop_spec. eauto 10. }
      congruence.
    + split.
      * intros [= <- <-]. apply confirm_loop_spec in Hc as (pre & d & ? & ? & ? & ?).
        exists pre, d, rest0. done.
      * intros (pre & d & rest & Heq & Hpre & Hd & Hb & ->).
        assert (confirm_loop (stdin w) = inr (b, rest)) as Hc'.
        { apply confirm_loop_spec. eauto 10. }
        rewrite Hc in Hc'. by injection Hc' as -> ->.
  - intros e. rewrite <- confirm_loop_error.
    destruct (confirm_loop (stdin w)) as [e0|[b0 rest0]]; [|done].
    split; congruence.
Qed.

(** ** Running the writers *)

Section Writers.

Variable set_iter : gset str -> list str.

Lemma world_eta (w : world) : mk_world (fs w) (stdin w) (trace w) = w.
Proof. by destruct w. Qed.

Lemma for_each_write_run (p : str) (ks : list str) (w : world) (old : str) :
  fs w !! p = Some old →
  for_each (fun key => write_file p (key_line key)) ks w =
  inr (tt, mk_world (<[p := old ++ concat (map key_line ks)]> (fs w)) (stdin w)
                    (trace w ++ map (fun key => EvWrite p (key_line key)) ks)).
Proof.
  revert w old. induction ks as [|k ks IH]; intros w old Hp.
  - cbn [for_each map concat]. rewrite app_nil_r, app_nil_r, insert_id by done.
    by rewrite world_eta.
  - cbn [for_each]. unfold mbind, M_bind at 1.
    unfold write_file at 1. cbn [fs stdin trace]. rewrite Hp. simpl default.
    rewrite (IH _ (old ++ key_line k)) by (simpl; apply lookup_insert_eq).
    cbn [fs stdin trace map concat].
    rewrite insert_insert_eq, <- !app_assoc. done.
Qed.

Lemma fix_missing_keys_inv (env ex : str) (w w' : world) :
  fix_missing_keys set_iter env ex w = inr (tt, w') →
  ∃ ce cx, fs w !! env = Some ce ∧ fs w !! ex = Some cx.
Proof.
  intros H.
  unfold fix_missing_keys, get_env_keys, mbind, M_bind, mret, M_ret, read_file in H.
  cbv beta in H.
  destruct (fs w !! env) as [ce|]; cbv iota in H; [|discriminate H].
  destruct (fs w !! ex) as [cx|]; cbv iota in H; [|discriminate H]. eauto.
Qed.

Lemma fix_missing_keys_run (env ex : str) (w : world) (ce cx : str) :
  fs w !! env = Some ce → fs w !! ex = Some cx →
  fix_missing_keys set_iter env ex w =
  let missing := get_missing_keys (keys_of_text ce) (keys_of_text cx) in
  if bool_decide (missing = ∅) then inr (tt, w)
  else inr (tt, mk_world
                  (<[ex := cx ++ added_marker ++ concat (map key_line (set_iter missing))]> (fs w))
                  (stdin w)
                  (trace w ++ EvOpen ex ModeA :: EvWrite ex added_marker ::
                   map (fun key => EvWrite ex (key_line key)) (set_iter missing))).
Proof.
  intros Henv Hex. unfold fix_missing_keys, mbind, M_bind at 1 2.
  rewrite (get_env_keys_run _ _ _ Henv), (get_env_keys_run _ _ _ Hex).
  cbn zeta.
  case_bool_decide; [done|].
  unfold mbind, M_bind, open_append at 1. cbn [fs stdin trace]. rewrite Hex.
  simpl default. rewrite (insert_id (fs w)) by done.
  unfold write_file at 1. cbn [fs stdin trace].
  rewrite Hex. simpl default.
  rewrite (for_each_write_run _ _ _ (cx ++ added_marker)) by (simpl; apply lookup_insert_eq).
  cbn [fs stdin trace]. rewrite insert_insert_eq, <- !app_assoc. done.
Qed.

End Writers.

(** ** File Initializer *)

(** C2 (code bug): with [--init --approve], reference keys [{A, B}] and no
    file at the target path [.env], [init_env_file] returns without
    writing anything: the whole body after [if os.path.exists(...)],
    including the writes, is nested inside that test. *)
Lemma init_env_file_missing_target_writes_nothing (set_iter : gset str -> list str) :
  fs init_sample_world !! lit ".env" = None ∧
  get_env_keys (lit ".env.example") init_sample_world =
    inr ({[ lit "A"; lit "B" ]}, init_sample_world) ∧
  init_env_file set_iter init_sample_args init_sample_world =
    inr (tt, init_sample_world).
Proof. split_and!; reflexivity. Qed.

(** ** Append Fixer *)

Section FixProperties.

Variable set_iter : gset str -> list str.
Hypothesis set_iter_perm : ∀ X, set_iter X ≡ₚ elements X.

(** C5: when no key of the env file is missing from the example file,
    [fix_missing_keys] leaves the world as it is (no open, no write, same
    contents); otherwise it opens the example file for appending and
    appends ["\n# Added by envalidator\n"] followed by one line
    ["key=\n"] per missing key, each key once, to the existing contents. *)
Lemma fix_missing_keys_appends (env ex : str) (w : world) (ce cx : str) :
  fs w !! env = Some ce → fs w !! ex = Some cx →
  let missing := get_missing_keys (keys_of_text ce) (keys_of_text cx) in
  (missing = ∅ → fix_missing_keys set_iter env ex w = inr (tt, w)) ∧
  (missing ≠ ∅ →
   ∃ ks, ks ≡ₚ elements missing ∧
     fix_missing_keys set_iter env ex w =
     inr (tt, mk_world
                (<[ex := cx ++ ([LF] ++ lit "# Added by envalidator" ++ [LF]) ++
                         concat (map (fun key => key ++ lit "=" ++ [LF]) ks)]> (fs w))
                (stdin w)
                (trace w ++ EvOpen ex ModeA ::
                 EvWrite ex ([LF] ++ lit "# Added by envalidator" ++ [LF]) ::
                 map (fun key => EvWrite ex (key ++ lit "=" ++ [LF])) ks))).
Proof.
  intros Henv Hex missing.
  rewrite (fix_missing_keys_run set_iter env ex w ce cx Henv Hex).
  cbn zeta. fold missing. split.
  - intros Hm. by rewrite bool_decide_eq_true_2.
  - intros Hm. exists (set_iter missing). split; [apply set_iter_perm|].
    by rewrite bool_decide_eq_false_2.
Qed.

End FixProperties.

Lemma fix_missing_keys_appends_witness :
  fs sample_world !! lit ".env" = Some sample_env_text ∧
  fs sample_world !! lit ".env.example" = Some sample_example_text ∧
  (let missing := get_missing_keys (keys_of_text sample_env_text)
                                   (keys_of_text sample_example_text) in
   (missing = ∅ →
    fix_missing_keys elements (lit ".env") (lit ".env.example") sample_world =
    inr (tt, sample_world)) ∧
   (missing ≠ ∅ →
    ∃ ks, ks ≡ₚ elements missing ∧
      fix_missing_keys elements (lit ".env") (lit ".env.example") sample_world =
      inr (tt, mk_world
                 (<[lit ".env.example" :=
                      sample_example_text ++ ([LF] ++ lit "# Added by envalidator" ++ [LF]) ++
                      concat (map (fun key => key ++ lit "=" ++ [LF]) ks)]> (fs sample_world))
                 (stdin sample_world)
                 (trace sample_world ++ EvOpen (lit ".env.example") ModeA ::
                  EvWrite (lit ".env.example") ([LF] ++ lit "# Added by envalidator" ++ [LF]) ::
                  map (fun key => EvWrite (lit ".env.example") (key ++ lit "=" ++ [LF])) ks)))).
Proof.
  split; [reflexivity|]. split; [reflexivity|].
  apply (fix_missing_keys_appends elements (fun X => Permutation_refl (elements X))
           (lit ".env") (lit ".env.example") sample_world sample_env_text
           sample_example_text); reflexivity.
Defined.

(** ** Newline translation and line splitting of concatenated texts *)

Section Lines.

Implicit Types (s t u a b : str) (c : ascii).

Lemma last_cond c a b :
  last (c :: a) ≠ Some CR ∨ head b ≠ Some LF →
  last a ≠ Some CR ∨ head b ≠ Some LF.
Proof. destruct a as [|x a]; [by left|]. by rewrite last_cons_cons. Qed.

Lemma translate_cr_lf s :
  translate_newlines (CR :: LF :: s) = LF :: translate_newlines s.
Proof. reflexivity. Qed.

Lemma translate_cr_other d s :
  d ≠ LF → translate_newlines (CR :: d :: s) = LF :: translate_newlines (d :: s).
Proof.
  intros Hd. cbn [translate_newlines]. rewrite (Ascii.eqb_refl CR).
  destruct (Ascii.eqb_spec d LF); [done|reflexivity].
Qed.

Lemma translate_cr_end : translate_newlines [CR] = [LF].
Proof. reflexivity. Qed.

Lemma translate_other c s :
  c ≠ CR → translate_newlines (c :: s) = c :: translate_newlines s.
Proof.
  intros Hc. cbn [translate_newlines].
  destruct (Ascii.eqb_spec c CR); [done|reflexivity].
Qed.

Lemma translate_newlines_app a b :
  last a ≠ Some CR ∨ head b ≠ Some LF →
  translate_newlines (a ++ b) = translate_newlines a ++ translate_newlines b.
Proof.
  remember (length a) as n eqn:Hn. revert a Hn.
  induction n as [n IH] using lt_wf_ind. intros a -> Hc.
  destruct a as [|c a1]; [done|].
  rewrite <- app_comm_cons.
  destruct (Ascii.eqb_spec c CR) as [->|Hc'].
  - destruct a1 as [|d a2].
    + destruct b as [|d b2]; [by rewrite app_nil_r|].
      change ([] ++ d :: b2) with (d :: b2).
      destruct (Ascii.eqb_spec d LF) as [->|Hd].
      { exfalso. destruct Hc as [Hc|Hc]; by apply Hc. }
      rewrite translate_cr_other, translate_cr_end by done. done.
    + rewrite <- app_comm_cons. destruct (Ascii.eqb_spec d LF) as [->|Hd].
      * rewrite !translate_cr_lf.
        rewrite (IH (length a2)); [done|simpl; lia|done|].
        by do 2 apply last_cond in Hc.
      * rewrite !translate_cr_other by done. rewrite app_comm_cons.
        rewrite (IH (length (d :: a2))); [done|simpl; lia|done|].
        by apply last_cond in Hc.
  - rewrite !translate_other by done.
    rewrite (IH (length a1)); [done|simpl; lia|done|].
    by apply last_cond in Hc.
Qed.

Lemma translate_newlines_no_cr s : CR ∉ s → translate_newlines s = s.
Proof.
  induction s as [|c s IH]; intros Hs; [done|]. simpl.
  destruct (Ascii.eqb_spec c CR) as [->|_]; [set_solver|].
  rewrite IH by set_solver. done.
Qed.

Lemma cr_not_in_translate s : CR ∉ translate_newlines s.
Proof.
  remember (length s) as n eqn:Hn. revert s Hn.
  induction n as [n IH] using lt_wf_ind. intros s ->.
  destruct s as [|c s1]; [set_solver|]. simpl.
  destruct (Ascii.eqb_spec c CR) as [->|Hc].
  - destruct s1 as [|d s2]; [set_solver|].
    destruct (Ascii.eqb_spec d LF) as [->|Hd].
    + intros [Hx|Hx]%elem_of_cons; [discriminate|].
      revert Hx. apply (IH (length s2)); [simpl; lia|done].
    + intros [Hx|Hx]%elem_of_cons; [discriminate|].
      revert Hx. apply (IH (length (d :: s2))); [simpl; lia|done].
  - intros [Hx|Hx]%elem_of_cons; [done|].
    revert Hx. apply (IH (length s1)); [simpl; lia|done].
Qed.

(** Appending a newline and more text to a file: the text already there
    reads the same, up to a final newline coming from a trailing ["\r"]. *)
Lemma translate_newlines_app_lf a y :
  ∃ T, translate_newlines (a ++ LF :: y) = T ++ LF :: translate_newlines y ∧
       (translate_newlines a = T ∨ translate_newlines a = T ++ [LF]).
Proof.
  destruct (decide (last a = Some CR)) as [Hl|Hl].
  - apply last_Some in Hl as [a0 ->].
    exists (translate_newlines a0). split.
    + rewrite <- app_assoc. simpl.
      rewrite translate_newlines_app by (right; discriminate).
      simpl. done.
    + right. rewrite translate_newlines_app by (right; discriminate). done.
  - exists (translate_newlines a). split; [|by left].
    rewrite translate_newlines_app by (by left). done.
Qed.

End Lines.

Section Segments.

Implicit Types (s t u seg : str) (segs : list str) (c : ascii).

Lemma segments_cons_other c t :
  c ≠ LF →
  segments (c :: t) =
  match segments t with
  | seg :: segs => (c :: seg) :: segs
  | [] => [[c]]
  end.
Proof. intros Hc. cbn [segments]. by destruct (Ascii.eqb_spec c LF). Qed.

Lemma segments_cons_lf t : segments (LF :: t) = [] :: segments t.
Proof. reflexivity. Qed.

Lemma segments_shape t : ∃ seg segs, segments t = seg :: segs.
Proof.
  induction t as [|c t (seg & segs & IH)]; [by eexists _, _|].
  destruct (decide (c = LF)) as [->|Hc].
  - rewrite segments_cons_lf. eauto.
  - rewrite segments_cons_other, IH by done. eauto.
Qed.

Lemma segments_app_lf t u : segments (t ++ LF :: u) = segments t ++ segments u.
Proof.
  induction t as [|c t IH]; [done|]. rewrite <- app_comm_cons.
  destruct (decide (c = LF)) as [->|Hc].
  - by rewrite !segments_cons_lf, IH.
  - rewrite !segments_cons_other, IH by done.
    destruct (segments_shape t) as (seg & segs & ->). done.
Qed.

Lemma segments_no_lf t : LF ∉ t → segments t = [t].
Proof.
  induction t as [|c t IH]; intros Ht; [done|].
  rewrite segments_cons_other by set_solver. rewrite IH by set_solver. done.
Qed.

Lemma elem_of_segments x seg t :
  seg ∈ segments t → x ∈ seg → x ∈ t ∧ x ≠ LF.
Proof.
  revert seg. induction t as [|c t IH]; intros seg Hseg Hx.
  - apply list_elem_of_singleton in Hseg as ->. set_solver.
  - destruct (decide (c = LF)) as [->|Hc].
    + rewrite segments_cons_lf in Hseg.
      apply elem_of_cons in Hseg as [->|Hseg]; [set_solver|].
      destruct (IH seg Hseg Hx). set_solver.
    + rewrite segments_cons_other in Hseg by done.
      destruct (segments_shape t) as (seg0 & segs & Ht). rewrite Ht in Hseg.
      apply elem_of_cons in Hseg as [->|Hseg].
      * apply elem_of_cons in Hx as [->|Hx]; [set_solver|].
        destruct (IH seg0 ltac:(rewrite Ht; left) Hx). set_solver.
      * destruct (IH seg ltac:(rewrite Ht; by right) Hx). set_solver.
Qed.

Lemma py_lines_segments t : py_lines t = lines_of_segments (segments t).
Proof.
  induction t as [|c t IH]; [done|].
  destruct (decide (c = LF)) as [->|Hc].
  - rewrite segments_cons_lf. cbn [py_lines]. rewrite (Ascii.eqb_refl LF), IH.
    destruct (segments_shape t) as (seg & segs & ->). done.
  - rewrite segments_cons_other by done.
    replace (py_lines (c :: t)) with
      (match py_lines t with [] => [[c]] | l :: ls => (c :: l) :: ls end)
      by (cbn [py_lines]; by destruct (Ascii.eqb_spec c LF)).
    rewrite IH. destruct (segments_shape t) as (seg & segs & ->).
    destruct segs as [|seg' segs]; [by destruct seg|done].
Qed.

Lemma elem_of_lines_of_segments l segs :
  l ∈ lines_of_segments segs → ∃ seg, seg ∈ segs ∧ (l = seg ∨ l = seg ++ [LF]).
Proof.
  induction segs as [|seg segs IH]; [set_solver|]. cbn [lines_of_segments].
  destruct segs as [|seg' segs].
  - destruct seg as [|x seg]; [set_solver|].
    intros Hl. apply list_elem_of_singleton in Hl as ->.
    exists (x :: seg). set_solver.
  - intros [->|Hl]%elem_of_cons; [exists seg; set_solver|].
    destruct (IH Hl) as (seg0 & ? & ?). exists seg0. set_solver.
Qed.

Lemma segment_in_lines seg segs :
  seg ∈ segs →
  seg = [] ∨ seg ∈ lines_of_segments segs ∨ seg ++ [LF] ∈ lines_of_segments segs.
Proof.
  induction segs as [|s0 segs IH]; [set_solver|]. cbn [lines_of_segments].
  intros [->|Hin]%elem_of_cons.
  - destruct segs as [|seg' segs].
    + destruct s0; [by left|]. right; left. set_solver.
    + right; right. set_solver.
  - destruct segs as [|seg' segs]; [set_solver|].
    destruct (IH Hin) as [?|[?|?]]; [by left|right; left; set_solver|right; right; set_solver].
Qed.

End Segments.

(** ** Keys read through the segments of a text *)

Section SegmentKeys.

Implicit Types (s t u seg k : str) (c : ascii).

Lemma lstrip_app_spaces s u :
  Forall (λ c, py_isspace c = true) s → lstrip (s ++ u) = lstrip u.
Proof.
  induction s as [|c s IH]; intros Hs; [done|].
  apply Forall_cons in Hs as [Hc Hs]. simpl. rewrite Hc. by apply IH.
Qed.

Lemma lstrip_app_nonempty s u c r :
  lstrip s = c :: r → py_isspace c = false → lstrip (s ++ u) = c :: r ++ u.
Proof.
  induction s as [|c0 s IH]; intros Hs Hc; [discriminate|]. simpl in *.
  destruct (py_isspace c0) eqn:Hc0; [by apply IH|]. by injection Hs as -> ->.
Qed.

Lemma rstrip_app_spaces s u :
  Forall (λ c, py_isspace c = true) u → rstrip (s ++ u) = rstrip s.
Proof.
  intros Hu. induction s as [|c s IH].
  - by apply rstrip_nil_iff.
  - rewrite <- app_comm_cons, !rstrip_cons, IH. done.
Qed.

Lemma lf_space : py_isspace LF = true.
Proof. reflexivity. Qed.

Lemma strip_app_lf s :
  strip (s ++ [LF]) = strip s ∧ head (lstrip (s ++ [LF])) = head (lstrip s).
Proof.
  unfold strip. destruct (lstrip_cases s) as [Hl|(c & r & Hl & Hc)].
  - rewrite Hl. rewrite lstrip_app_spaces by by apply lstrip_nil_iff.
    vm_compute. done.
  - rewrite (lstrip_app_nonempty s [LF] c r Hl Hc), Hl. split; [|done].
    rewrite app_comm_cons. apply rstrip_app_spaces. constructor; [apply lf_space|constructor].
Qed.

Lemma is_declaration_app_lf s : is_declaration (s ++ [LF]) ↔ is_declaration s.
Proof. unfold is_declaration. by destruct (strip_app_lf s) as [-> ->]. Qed.

Lemma env_line_key_app_lf s : env_line_key (s ++ [LF]) = env_line_key s.
Proof. unfold env_line_key. by rewrite (proj1 (strip_app_lf s)). Qed.

Lemma not_declaration_nil : ¬ is_declaration [].
Proof. intros [H _]. by apply H. Qed.

Lemma elem_of_keys_of_text_segments content k :
  k ∈ keys_of_text content ↔
  ∃ seg, seg ∈ segments (translate_newlines content) ∧ is_declaration seg ∧
         k = env_line_key seg.
Proof.
  rewrite elem_of_keys_of_text. unfold file_lines. rewrite py_lines_segments. split.
  - intros (l & Hin & Hd & ->).
    destruct (elem_of_lines_of_segments _ _ Hin) as (seg & Hseg & [->| ->]).
    + eauto.
    + exists seg. rewrite is_declaration_app_lf, env_line_key_app_lf in *. done.
  - intros (seg & Hseg & Hd & ->).
    destruct (segment_in_lines _ _ Hseg) as [->|[Hl|Hl]].
    + by destruct not_declaration_nil.
    + eauto.
    + exists (seg ++ [LF]). by rewrite is_declaration_app_lf, env_line_key_app_lf.
Qed.

Lemma key_part_sub x y : x ∈ default [] (head (split_eq1 y)) → x ∈ y.
Proof.
  induction y as [|a y IH]; simpl; [set_solver|].
  destruct (Ascii.eqb_spec a "="%char) as [->|Ha]; [set_solver|].
  destruct (split_eq1 y) as [|h t]; simpl in *; set_solver.
Qed.

Lemma elem_of_env_line_key x l : x ∈ env_line_key l → x ∈ l.
Proof.
  unfold env_line_key. intros Hx.
  by apply elem_of_strip, key_part_sub, elem_of_strip in Hx.
Qed.

Lemma key_part_cons c y :
  c ≠ "="%char → ∃ h, default [] (head (split_eq1 (c :: y))) = c :: h.
Proof.
  intros Hc. cbn [split_eq1]. destruct (Ascii.eqb_spec c "="%char); [done|].
  destruct (split_eq1 y) as [|h t]; eauto.
Qed.

(** Every key read from a file is trimmed, has no [=], no line break and
    does not start with [#]. *)
Lemma keys_of_text_good content k :
  k ∈ keys_of_text content →
  strip k = k ∧ ("="%char ∉ k) ∧ (LF ∉ k) ∧ (CR ∉ k) ∧ startswith_hash k = false.
Proof.
  rewrite elem_of_keys_of_text_segments. intros (seg & Hseg & Hd & ->).
  split_and!.
  - unfold env_line_key. apply strip_idem.
  - apply env_line_key_no_eq_char.
  - intros Hx. apply elem_of_env_line_key in Hx.
    by destruct (elem_of_segments _ _ _ Hseg Hx).
  - intros Hx. apply elem_of_env_line_key in Hx.
    destruct (elem_of_segments _ _ _ Hseg Hx) as [Hx' _].
    by apply (cr_not_in_translate content).
  - destruct Hd as [Hne Hhd].
    destruct (lstrip_cases seg) as [Hl|(c & r & Hl & Hc)].
    { exfalso. apply Hne. unfold strip. by rewrite Hl. }
    rewrite Hl in Hhd. simpl in Hhd.
    unfold env_line_key. rewrite (strip_lstrip_cons seg c r Hl Hc).
    destruct (decide (c = "="%char)) as [->|Hce].
    + reflexivity.
    + destruct (key_part_cons c (rstrip r) Hce) as [h ->].
      rewrite (strip_lstrip_cons (c :: h) c h) by (simpl; by rewrite Hc).
      simpl. destruct (Ascii.eqb_spec c "#"%char); congruence.
Qed.

Lemma key_eq_line k :
  strip k = k → "="%char ∉ k → startswith_hash k = false →
  is_declaration (k ++ ["="%char]) ∧ env_line_key (k ++ ["="%char]) = k.
Proof.
  intros Hs He Hh. split.
  - split.
    + rewrite strip_nil_iff, Forall_app. intros [_ Hf].
      apply Forall_cons in Hf as [Hf _]. discriminate.
    + destruct (lstrip_cases k) as [Hl|(c & r & Hl & Hc)].
      * rewrite lstrip_app_spaces by by apply lstrip_nil_iff. discriminate.
      * rewrite (lstrip_app_nonempty k _ c r Hl Hc). simpl. intros [= ->].
        rewrite <- Hs, (strip_lstrip_cons k _ r Hl Hc) in Hh. discriminate.
  - rewrite (env_line_key_split (k ++ ["="%char]) k []); [done|].
    split; [done|exact He].
Qed.

Lemma key_lines_segments ks :
  (∀ k, k ∈ ks → LF ∉ k) →
  ∀ k, k ∈ ks → k ++ ["="%char] ∈ segments (concat (map key_line ks)).
Proof.
  induction ks as [|k0 ks IH]; intros Hks k Hk; [set_solver|].
  cbn [map concat]. unfold key_line at 1.
  change (k0 ++ lit "=" ++ [LF]) with (k0 ++ ["="%char; LF]).
  replace ((k0 ++ ["="%char; LF]) ++ concat (map key_line ks))
    with ((k0 ++ ["="%char]) ++ LF :: concat (map key_line ks))
    by (by rewrite <- !app_assoc).
  rewrite segments_app_lf, segments_no_lf.
  - apply elem_of_cons in Hk as [->|Hk]; [set_solver|].
    apply elem_of_app. right. apply IH; [set_solver|done].
  - rewrite elem_of_app. intros [Hx|Hx]; [by apply (Hks k0); [left|]|set_solver].
Qed.

End SegmentKeys.

(** ** Reading back the appended text *)

Section AppendedKeys.

Lemma key_lines_no_cr ks :
  (∀ k, k ∈ ks → CR ∉ k) → CR ∉ concat (map key_line ks).
Proof.
  induction ks as [|k ks IH]; intros Hks; cbn [map concat]; [set_solver|].
  unfold key_line at 1. intros Hx.
  apply elem_of_app in Hx as [Hx|Hx]; [|revert Hx; apply IH; set_solver].
  apply elem_of_app in Hx as [Hx|Hx]; [by apply (Hks k); [left|]|].
  revert Hx. eval_decide.
Qed.

(** The keys of a file to which the marker and lines ["key=\n"] have been
    appended: the keys read before, and the appended keys, provided those
    are keys as a file yields them. *)
Lemma keys_of_text_append cx ks :
  (∀ k, k ∈ ks →
     strip k = k ∧ ("="%char ∉ k) ∧ (LF ∉ k) ∧ (CR ∉ k) ∧ startswith_hash k = false) →
  keys_of_text cx ∪ list_to_set ks ⊆
  keys_of_text (cx ++ added_marker ++ concat (map key_line ks)).
Proof.
  intros Hks.
  assert (Heq : cx ++ added_marker ++ concat (map key_line ks) =
                cx ++ LF :: (lit "# Added by envalidator" ++ LF :: concat (map key_line ks)))
    by (unfold added_marker; by rewrite <- !app_assoc).
  assert (Hcr : CR ∉ lit "# Added by envalidator" ++ LF :: concat (map key_line ks)).
  { rewrite elem_of_app, elem_of_cons. intros [Hx|[Hx|Hx]].
    - revert Hx. eval_decide.
    - revert Hx. eval_decide.
    - revert Hx. apply key_lines_no_cr. intros k Hk. by destruct (Hks k Hk) as (_&_&_&?&_). }
  destruct (translate_newlines_app_lf cx
              (lit "# Added by envalidator" ++ LF :: concat (map key_line ks)))
    as (T & HT & HTc).
  rewrite (translate_newlines_no_cr _ Hcr) in HT.
  intros k Hk. apply elem_of_union in Hk as [Hk|Hk].
  - rewrite elem_of_keys_of_text_segments in Hk |- *.
    destruct Hk as (seg & Hseg & Hd & ->). exists seg. split_and!; [|done|done].
    rewrite Heq, HT, segments_app_lf. apply elem_of_app. left.
    destruct HTc as [HTc|HTc]; rewrite HTc in Hseg; [done|].
    rewrite segments_app_lf in Hseg. apply elem_of_app in Hseg as [Hseg|Hseg]; [done|].
    cbn in Hseg. apply list_elem_of_singleton in Hseg as ->.
    by destruct not_declaration_nil.
  - apply elem_of_list_to_set in Hk.
    destruct (Hks k Hk) as (Hs & He & _ & _ & Hh).
    destruct (key_eq_line k Hs He Hh) as [Hd Hkey].
    rewrite elem_of_keys_of_text_segments. exists (k ++ ["="%char]).
    split_and!; [|done|done].
    rewrite Heq, HT, !segments_app_lf. apply elem_of_app. right.
    apply elem_of_app. right. apply key_lines_segments; [|done].
    intros k' Hk'. by destruct (Hks k' Hk') as (_&_&?&_).
Qed.

End AppendedKeys.

(** ** Closing the gap *)

Section FixGap.

Variable set_iter : gset str -> list str.
Hypothesis set_iter_perm : ∀ X, set_iter X ≡ₚ elements X.

(** C10: after a successful run of [fix_missing_keys env ex], reading the
    env file gives the same keys [KE] as before, reading the example file
    gives a superset [KX] of them, and the missing keys computed again on
    the updated files are none. *)
Lemma fix_missing_keys_closes_gap (env ex : str) (w w' : world) :
  fix_missing_keys set_iter env ex w = inr (tt, w') →
  ∃ KE KX,
    get_env_keys env w = inr (KE, w) ∧
    get_env_keys env w' = inr (KE, w') ∧
    get_env_keys ex w' = inr (KX, w') ∧
    KE ⊆ KX ∧ get_missing_keys KE KX = ∅.
Proof.
  intros H.
  destruct (fix_missing_keys_inv set_iter env ex w w' H) as (ce & cx & Henv & Hex).
  rewrite (fix_missing_keys_run set_iter env ex w ce cx Henv Hex) in H.
  cbn zeta in H. unfold get_missing_keys in *.
  exists (keys_of_text ce).
  case_bool_decide as Hm.
  - injection H as <-. exists (keys_of_text cx).
    assert (Hsub : keys_of_text ce ⊆ keys_of_text cx).
    { intros k Hk. destruct (decide (k ∈ keys_of_text cx)) as [|Hn]; [done|].
      assert (Hin : k ∈ keys_of_text ce ∖ keys_of_text cx) by set_solver.
      rewrite Hm in Hin. set_solver. }
    split_and!; [by apply get_env_keys_run..|done|set_solver].
  - injection H as <-.
    assert (Hne : env ≠ ex) by (intros ->; rewrite Hex in Henv;
                                injection Henv as ->; by rewrite difference_diag_L in Hm).
    clear Hm.
    assert (Hsub : keys_of_text ce ⊆
                   keys_of_text (cx ++ added_marker ++
                     concat (map key_line
                       (set_iter (keys_of_text ce ∖ keys_of_text cx))))).
    { intros k Hk. apply keys_of_text_append.
      - intros k' Hk'. apply (keys_of_text_good ce).
        rewrite set_iter_perm, elem_of_elements, elem_of_difference in Hk'.
        by destruct Hk'.
      - rewrite elem_of_union, elem_of_list_to_set, set_iter_perm, elem_of_elements,
          elem_of_difference.
        destruct (decide (k ∈ keys_of_text cx)); [by left|by right]. }
    eexists. split_and!.
    + by apply get_env_keys_run.
    + apply get_env_keys_run. cbn [fs]. by rewrite lookup_insert_ne.
    + apply get_env_keys_run. cbn [fs]. by rewrite lookup_insert_eq.
    + exact Hsub.
    + set_solver.
Qed.

End FixGap.

Lemma fix_missing_keys_closes_gap_witness :
  fix_missing_keys elements (lit ".env") (lit ".env.example") sample_world =
    inr (tt, sample_fixed_world) ∧
  ∃ KE KX,
    get_env_keys (lit ".env") sample_world = inr (KE, sample_world) ∧
    get_env_keys (lit ".env") sample_fixed_world = inr (KE, sample_fixed_world) ∧
    get_env_keys (lit ".env.example") sample_fixed_world = inr (KX, sample_fixed_world) ∧
    KE ⊆ KX ∧ get_missing_keys KE KX = ∅.
Proof.
  assert (H : fix_missing_keys elements (lit ".env") (lit ".env.example") sample_world =
              inr (tt, sample_fixed_world)) by reflexivity.
  split; [exact H|].
  exact (fix_missing_keys_closes_gap elements (fun X => Permutation_refl (elements X))
           _ _ _ _ H).
Defined.

(** * Further properties of the code *)

(** ** Reading a file made of two parts *)

Section Concat.

Implicit Types (a b s t u : str).

Lemma py_lines_nonempty s : s ≠ [] → py_lines s ≠ [].
Proof.
  destruct s as [|c s]; [done|]. intros _. cbn [py_lines].
  destruct (Ascii.eqb c LF); [done|]. by destruct (py_lines s).
Qed.

Lemma py_lines_app_lf t u : py_lines (t ++ LF :: u) = py_lines (t ++ [LF]) ++ py_lines u.
Proof.
  induction t as [|c t IH]; [reflexivity|]. cbn [app py_lines].
  destruct (Ascii.eqb c LF); [by rewrite IH|]. rewrite IH.
  destruct (py_lines (t ++ [LF])) eqn:E; [|done].
  exfalso. revert E. apply py_lines_nonempty. by destruct t.
Qed.

Lemma translate_newlines_ends_lf a :
  last a = Some LF → ∃ T, translate_newlines a = T ++ [LF].
Proof.
  intros Ha. apply last_Some in Ha as [a0 ->].
  destruct (translate_newlines_app_lf a0 []) as (T & HT & _). by exists T.
Qed.

Lemma file_lines_app a b :
  last a = Some LF → file_lines (a ++ b) = file_lines a ++ file_lines b.
Proof.
  intros Ha. unfold file_lines.
  rewrite translate_newlines_app by (left; rewrite Ha; by compute).
  destruct (translate_newlines_ends_lf a Ha) as [T ->].
  rewrite <- app_assoc. apply py_lines_app_lf.
Qed.

Lemma keys_of_text_app a b :
  last a = Some LF → keys_of_text (a ++ b) = keys_of_text a ∪ keys_of_text b.
Proof.
  intros Ha. apply leibniz_equiv, set_equiv. intros k.
  rewrite elem_of_union, !elem_of_keys_of_text, file_lines_app by done.
  setoid_rewrite elem_of_app. naive_solver.
Qed.

Lemma empty_keys_step_acc X acc l :
  empty_keys_step (X ∪ acc) l =
  match empty_keys_step acc l with inl e => inl e | inr acc' => inr (X ∪ acc') end.
Proof.
  unfold empty_keys_step.
  destruct (py_truthy (strip l) && negb (startswith_hash (strip l))); [|done].
  destruct (split_eq1 (strip l)) as [|k [|v [|]]]; try done.
  destruct (negb (py_truthy (strip v))); [|done]. f_equal. set_solver.
Qed.

Lemma empty_keys_loop_acc X acc ls :
  empty_keys_loop (X ∪ acc) ls =
  match empty_keys_loop acc ls with inl e => inl e | inr K => inr (X ∪ K) end.
Proof.
  revert acc. induction ls as [|l ls IH]; intros acc; [done|].
  cbn [empty_keys_loop]. rewrite empty_keys_step_acc.
  destruct (empty_keys_step acc l); [done|]. apply IH.
Qed.

Lemma empty_keys_loop_app acc l1 l2 :
  empty_keys_loop acc (l1 ++ l2) =
  match empty_keys_loop acc l1 with inl e => inl e | inr K => empty_keys_loop K l2 end.
Proof.
  revert acc. induction l1 as [|l l1 IH]; intros acc; [done|].
  cbn [empty_keys_loop app]. destruct (empty_keys_step acc l); [done|]. apply IH.
Qed.

Lemma empty_keys_of_text_app a b :
  last a = Some LF →
  empty_keys_of_text (a ++ b) =
  match empty_keys_of_text a with
  | inl e => inl e
  | inr E1 => match empty_keys_of_text b with
              | inl e => inl e
              | inr E2 => inr (E1 ∪ E2)
              end
  end.
Proof.
  intros Ha. unfold empty_keys_of_text.
  rewrite file_lines_app, empty_keys_loop_app by done.
  destruct (empty_keys_loop ∅ (file_lines a)) as [e|E1]; [done|].
  replace E1 with (E1 ∪ ∅) at 1 by apply union_empty_r_L.
  apply empty_keys_loop_acc.
Qed.

End Concat.

(** ** Reading back lines ["key=\n"] *)

Section KeyLines.

Lemma keys_of_text_file_key content k : k ∈ keys_of_text content → file_key k.
Proof. apply keys_of_text_good. Qed.

Lemma segments_key_lines ks :
  (∀ k, k ∈ ks → LF ∉ k) →
  segments (concat (map key_line ks)) = ((λ k, k ++ ["="%char]) <$> ks) ++ [[]].
Proof.
  induction ks as [|k ks IH]; intros Hks; [reflexivity|].
  cbn [map concat]. unfold key_line at 1.
  change (k ++ lit "=" ++ [LF]) with (k ++ ["="%char; LF]).
  replace ((k ++ ["="%char; LF]) ++ concat (map key_line ks))
    with ((k ++ ["="%char]) ++ LF :: concat (map key_line ks))
    by (by rewrite <- !app_assoc).
  rewrite segments_app_lf, segments_no_lf, IH by set_solver. done.
Qed.

Lemma lines_of_segments_terminated segs :
  lines_of_segments (segs ++ [[]]) = (λ s, s ++ [LF]) <$> segs.
Proof.
  induction segs as [|s segs IH]; [done|].
  cbn [app lines_of_segments]. rewrite IH. by destruct segs.
Qed.

Lemma file_lines_key_lines ks :
  Forall file_key ks →
  file_lines (concat (map key_line ks)) = (λ k, (k ++ ["="%char]) ++ [LF]) <$> ks.
Proof.
  intros Hks. rewrite Forall_forall in Hks. unfold file_lines.
  rewrite translate_newlines_no_cr.
  2: { apply key_lines_no_cr. intros k Hk. by destruct (Hks k Hk) as (_&_&_&?&_). }
  rewrite py_lines_segments, segments_key_lines.
  2: { intros k Hk. by destruct (Hks k Hk) as (_&_&?&_). }
  rewrite lines_of_segments_terminated, <- list_fmap_compose. done.
Qed.

Lemma keys_of_text_key_lines ks :
  Forall file_key ks → keys_of_text (concat (map key_line ks)) = list_to_set ks.
Proof.
  intros Hks. apply leibniz_equiv, set_equiv. intros k.
  rewrite elem_of_keys_of_text, file_lines_key_lines, elem_of_list_to_set by done.
  rewrite Forall_forall in Hks. setoid_rewrite list_elem_of_fmap. split.
  - intros (l & (k' & -> & Hk') & Hd & ->).
    destruct (Hks k' Hk') as (Hs & He & _ & _ & Hh).
    destruct (key_eq_line k' Hs He Hh) as [_ Hkey].
    by rewrite env_line_key_app_lf, Hkey.
  - intros Hk. destruct (Hks k Hk) as (Hs & He & _ & _ & Hh).
    destruct (key_eq_line k Hs He Hh) as [Hd Hkey].
    exists ((k ++ ["="%char]) ++ [LF]).
    rewrite is_declaration_app_lf, env_line_key_app_lf, Hkey. eauto.
Qed.

Lemma empty_keys_loop_key_lines acc ks :
  Forall file_key ks →
  empty_keys_loop acc ((λ k, (k ++ ["="%char]) ++ [LF]) <$> ks) =
  inr (list_to_set ks ∪ acc).
Proof.
  revert acc. induction ks as [|k ks IH]; intros acc Hks.
  - cbn [list_to_set]. by rewrite union_empty_l_L.
  - apply Forall_cons in Hks as [(Hs & He & _ & _ & Hh) Hks].
    destruct (key_eq_line k Hs He Hh) as [Hd _].
    cbn [fmap list_fmap empty_keys_loop].
    rewrite <- app_assoc.
    rewrite (empty_keys_step_split acc _ k [LF]).
    + rewrite decide_True by reflexivity. rewrite IH by done.
      rewrite Hs. f_equal. clear. set_solver.
    + by rewrite app_assoc, is_declaration_app_lf.
    + split; [done|exact He].
Qed.

Lemma empty_keys_of_text_key_lines ks :
  Forall file_key ks → empty_keys_of_text (concat (map key_line ks)) = inr (list_to_set ks).
Proof.
  intros Hks. unfold empty_keys_of_text.
  rewrite file_lines_key_lines, empty_keys_loop_key_lines by done.
  f_equal. apply union_empty_r_L.
Qed.

(** The exact keys of a file after the marker and lines ["key=\n"] have
    been appended. *)
Lemma keys_of_text_append_exact cx ks :
  Forall file_key ks →
  keys_of_text (cx ++ added_marker ++ concat (map key_line ks)) =
  keys_of_text cx ∪ list_to_set ks.
Proof.
  intros Hks. apply (anti_symm (⊆)).
  2: { apply keys_of_text_append. intros k Hk. rewrite Forall_forall in Hks. by apply Hks. }
  pose proof Hks as Hks'. rewrite Forall_forall in Hks'.
  assert (Heq : cx ++ added_marker ++ concat (map key_line ks) =
                cx ++ LF :: (lit "# Added by envalidator" ++ LF :: concat (map key_line ks)))
    by (unfold added_marker; by rewrite <- !app_assoc).
  assert (Hcr : CR ∉ lit "# Added by envalidator" ++ LF :: concat (map key_line ks)).
  { rewrite elem_of_app, elem_of_cons. intros [Hx|[Hx|Hx]].
    - revert Hx. eval_decide.
    - revert Hx. eval_decide.
    - revert Hx. apply key_lines_no_cr. intros k Hk. by destruct (Hks' k Hk) as (_&_&_&?&_). }
  destruct (translate_newlines_app_lf cx
              (lit "# Added by envalidator" ++ LF :: concat (map key_line ks)))
    as (T & HT & HTc).
  rewrite (translate_newlines_no_cr _ Hcr) in HT.
  intros k Hk. rewrite elem_of_keys_of_text_segments, Heq, HT in Hk.
  destruct Hk as (seg & Hseg & Hd & ->).
  rewrite segments_app_lf, segments_app_lf, segments_key_lines in Hseg.
  2: { intros k Hk. by destruct (Hks' k Hk) as (_&_&?&_). }
  rewrite (segments_no_lf (lit "# Added by envalidator")) in Hseg by eval_decide.
  rewrite !elem_of_app in Hseg. destruct Hseg as [Hseg|[Hseg|[Hseg|Hseg]]].
  - apply elem_of_union_l. rewrite elem_of_keys_of_text_segments.
    exists seg. split_and!; [|done|done].
    destruct HTc as [-> | ->]; [done|].
    rewrite segments_app_lf. apply elem_of_app. by left.
  - apply list_elem_of_singleton in Hseg as ->. exfalso. revert Hd. eval_decide.
  - apply elem_of_union_r. apply list_elem_of_fmap in Hseg as (k & -> & Hk).
    destruct (Hks' k Hk) as (Hs & He & _ & _ & Hh).
    destruct (key_eq_line k Hs He Hh) as [_ ->]. by apply elem_of_list_to_set.
  - apply list_elem_of_singleton in Hseg as ->. by destruct not_declaration_nil.
Qed.

End KeyLines.

(** ** Running the initializer on an existing target *)

Lemma get_env_keys_missing (w : world) (p : str) :
  fs w !! p = None → get_env_keys p w = inl FileNotFoundError.
Proof. intros H. unfold get_env_keys, mbind, M_bind, read_file. by rewrite H. Qed.

Section InitRun.

Variable set_iter : gset str -> list str.

Lemma init_env_file_run (a : args) (w : world) (old : str) :
  fs w !! env_file a = Some old →
  init_env_file set_iter a w =
  match (if approve a then inr (true, w) else confirm_action w) with
  | inl e => inl e
  | inr (false, w1) => inr (tt, w1)
  | inr (true, w1) =>
      match fs w1 !! example_file a with
      | None => inl FileNotFoundError
      | Some cx =>
          inr (tt, mk_world
                     (<[env_file a := concat (map key_line (set_iter (keys_of_text cx)))]>
                        (fs w1))
                     (stdin w1)
                     (trace w1 ++ EvOpen (env_file a) ModeW ::
                      map (fun key => EvWrite (env_file a) (key_line key))
                          (set_iter (keys_of_text cx))))
      end
  end.
Proof.
  intros Henv. unfold init_env_file, mbind, M_bind at 1, path_exists. cbv beta iota.
  rewrite bool_decide_eq_true_2 by (rewrite Henv; eauto).
  unfold M_bind at 1.
  destruct (approve a); cbv beta iota;
    [|destruct (confirm_action w) as [e|[[|] w1]]; cbv beta iota; [done| |done]].
  all: unfold M_bind at 1; unfold mret, M_ret.
  all: cbn [negb]; cbv beta iota.
  all: match goal with
       | |- context [fs ?W !! ?P] =>
           destruct (fs W !! P) as [cx|] eqn:Hex;
           [rewrite (get_env_keys_run _ _ _ Hex)
           |by rewrite (get_env_keys_missing _ _ Hex)]
       end.
  all: unfold M_bind, open_write; cbv beta iota; cbn [fs stdin trace].
  all: rewrite (for_each_write_run _ _ _ []) by apply lookup_insert_eq.
  all: cbn [fs stdin trace]; by rewrite insert_insert_eq, <- app_assoc.
Qed.

End InitRun.

(** ** The state after a fix *)

Section FixPost.

Variable set_iter : gset str -> list str.
Hypothesis set_iter_perm : ∀ X, set_iter X ≡ₚ elements X.

Lemma list_to_set_set_iter X : list_to_set (set_iter X) = X.
Proof.
  apply leibniz_equiv, set_equiv. intros k.
  by rewrite elem_of_list_to_set, set_iter_perm, elem_of_elements.
Qed.

Lemma Forall_file_key_set_iter content X :
  X ⊆ keys_of_text content → Forall file_key (set_iter X).
Proof.
  intros HX. apply Forall_forall. intros k Hk.
  rewrite set_iter_perm, elem_of_elements in Hk.
  apply (keys_of_text_file_key content). by apply HX.
Qed.

Lemma union_difference_keys (X Y : gset str) : Y ∪ (X ∖ Y) = Y ∪ X.
Proof.
  apply leibniz_equiv, set_equiv. intros k.
  rewrite !elem_of_union, elem_of_difference.
  destruct (decide (k ∈ Y)); tauto.
Qed.

Lemma fix_missing_keys_post (env ex : str) (w w' : world) :
  fix_missing_keys set_iter env ex w = inr (tt, w') →
  ∃ ce cx, fs w !! env = Some ce ∧ fs w !! ex = Some cx ∧
    fs w' !! env = Some ce ∧
    get_env_keys ex w' = inr (keys_of_text cx ∪ keys_of_text ce, w') ∧
    (∀ p, p ≠ ex → fs w' !! p = fs w !! p) ∧
    stdin w' = stdin w.
Proof.
  intros H.
  destruct (fix_missing_keys_inv set_iter env ex w w' H) as (ce & cx & Henv & Hex).
  rewrite (fix_missing_keys_run set_iter env ex w ce cx Henv Hex) in H.
  cbn zeta in H. unfold get_missing_keys in H.
  exists ce, cx. split_and!; [done|done|..].
  all: case_bool_decide as Hm; injection H as <-.
  - done.
  - assert (Hne : env ≠ ex) by (intros ->; rewrite Hex in Henv;
                                injection Henv as ->; by rewrite difference_diag_L in Hm).
    cbn [fs]. by rewrite lookup_insert_ne.
  - rewrite (get_env_keys_run _ _ _ Hex), <- union_difference_keys, Hm.
    by rewrite union_empty_r_L.
  - rewrite (get_env_keys_run _ _ (cx ++ added_marker ++
               concat (map key_line (set_iter (keys_of_text ce ∖ keys_of_text cx)))))
      by (cbn [fs]; apply lookup_insert_eq).
    rewrite keys_of_text_append_exact, list_to_set_set_iter, union_difference_keys.
    + done.
    + apply (Forall_file_key_set_iter ce). apply subseteq_difference_l. done.
  - done.
  - intros p Hp. cbn [fs]. by rewrite lookup_insert_ne.
  - done.
  - done.
Qed.

End FixPost.

(** ** Unfolding [main] *)

Section MainRun.

Variable set_iter : gset str -> list str.

Lemma main_no_init (a : args) (w : world) :
  init a = false →
  main set_iter a w =
  match get_env_keys (env_file a) w with
  | inl e => inl e
  | inr (env_keys, w0) =>
      match get_env_keys (example_file a) w0 with
      | inl e => inl e
      | inr (example_keys, w1) =>
          match (if fix_ a then fix_missing_keys set_iter (env_file a) (example_file a) w1
                 else inr (tt, w1)) with
          | inl e => inl e
          | inr (_, w2) =>
              match find_empty_keys (env_file a) w2 with
              | inl e => inl e
              | inr (empty_keys, w3) =>
                  let missing_keys := get_missing_keys env_keys example_keys in
                  inr ((if bool_decide (missing_keys = ∅) then []
                        else [MissingKeysWarning (example_file a) missing_keys]) ++
                       (if bool_decide (empty_keys = ∅) then []
                        else [EmptyKeysWarning (env_file a) empty_keys]), w3)
              end
          end
      end
  end.
Proof.
  intros Hi. unfold main. rewrite Hi. unfold mbind, M_bind, mret, M_ret. cbv beta.
  destruct (get_env_keys (env_file a) w) as [e|[KE w0]]; [done|].
  destruct (get_env_keys (example_file a) w0) as [e|[KX w1]]; [done|].
  by destruct (fix_ a).
Qed.

(** With both files present, the [--fix] step succeeds and keeps the env
    file as it is. *)
Lemma fix_step_keeps_env (a : args) (w : world) (ce cx : str) :
  fs w !! env_file a = Some ce → fs w !! example_file a = Some cx →
  ∃ w1, (if fix_ a then fix_missing_keys set_iter (env_file a) (example_file a) w
         else inr (tt, w)) = inr (tt, w1) ∧
        fs w1 !! env_file a = Some ce.
Proof.
  intros Henv Hex. destruct (fix_ a); [|by eexists].
  rewrite (fix_missing_keys_run set_iter _ _ w ce cx Henv Hex). cbn zeta.
  unfold get_missing_keys. case_bool_decide as Hm; [by eexists|].
  eexists. split; [done|]. cbn [fs].
  assert (Hne : env_file a ≠ example_file a).
  { intros Heq. rewrite Heq, Hex in Henv. injection Henv as ->.
    by rewrite difference_diag_L in Hm. }
  by rewrite lookup_insert_ne.
Qed.

End MainRun.

Section MainInit.

Variable set_iter : gset str -> list str.

Lemma init_env_file_absent_target (a : args) (w : world) :
  fs w !! env_file a = None → init_env_file set_iter a w = inr (tt, w).
Proof.
  intros H. unfold init_env_file, mbind, M_bind at 1, path_exists. cbv beta iota.
  rewrite bool_decide_eq_false_2 by (rewrite H; by intros [? ?]). done.
Qed.

Lemma main_after_init (a : args) (w : world) :
  main set_iter a w =
  match (if init a then init_env_file set_iter a w else inr (tt, w)) with
  | inl e => inl e
  | inr (_, w0) =>
      main set_iter (mk_args (env_file a) (example_file a) false (fix_ a) (approve a)) w0
  end.
Proof. unfold main. by destruct (init a). Qed.

End MainInit.

(** * Extra properties *)

(** ** Reading a file made of two parts *)

(** [get_env_keys] on a file whose text is [a ++ b], where [a] ends in a
    newline, returns the keys of [a] together with the keys of [b]. *)
Lemma get_env_keys_concat (w : world) (p a b : str) :
  fs w !! p = Some (a ++ b) → last a = Some LF →
  get_env_keys p w = inr (keys_of_text a ∪ keys_of_text b, w).
Proof.
  intros Hp Ha. rewrite (get_env_keys_run _ _ _ Hp). by rewrite keys_of_text_app.
Qed.

Lemma get_env_keys_concat_witness :
  fs (one_file_world (lit ".env") (lit "A=1" ++ [LF] ++ lit "B=" ++ [LF])) !! lit ".env"
    = Some ((lit "A=1" ++ [LF]) ++ (lit "B=" ++ [LF])) ∧
  last (lit "A=1" ++ [LF]) = Some LF ∧
  get_env_keys (lit ".env") (one_file_world (lit ".env") (lit "A=1" ++ [LF] ++ lit "B=" ++ [LF]))
    = inr (keys_of_text (lit "A=1" ++ [LF]) ∪ keys_of_text (lit "B=" ++ [LF]),
           one_file_world (lit ".env") (lit "A=1" ++ [LF] ++ lit "B=" ++ [LF])).
Proof.
  assert (Hp : fs (one_file_world (lit ".env") (lit "A=1" ++ [LF] ++ lit "B=" ++ [LF]))
                 !! lit ".env" = Some ((lit "A=1" ++ [LF]) ++ (lit "B=" ++ [LF])))
    by reflexivity.
  assert (Ha : last (lit "A=1" ++ [LF]) = Some LF) by reflexivity.
  split; [exact Hp|]. split; [exact Ha|].
  exact (get_env_keys_concat _ _ _ _ Hp Ha).
Defined.

(** [find_empty_keys] on a file whose text is [a ++ b], where [a] ends in
    a newline, fails with [ValueError] when either part has a line without
    [=] (the first part's error first), and otherwise returns the empty keys
    of both parts together. *)
Lemma find_empty_keys_concat (w : world) (p a b : str) :
  fs w !! p = Some (a ++ b) → last a = Some LF →
  find_empty_keys p w =
  match empty_keys_of_text a, empty_keys_of_text b with
  | inl e, _ => inl e
  | inr _, inl e => inl e
  | inr E1, inr E2 => inr (E1 ∪ E2, w)
  end.
Proof.
  intros Hp Ha. rewrite (find_empty_keys_run _ _ _ Hp), empty_keys_of_text_app by done.
  destruct (empty_keys_of_text a); [done|]. by destruct (empty_keys_of_text b).
Qed.

Lemma find_empty_keys_concat_witness :
  fs (one_file_world (lit ".env") (lit "A=1" ++ [LF] ++ lit "B=" ++ [LF])) !! lit ".env"
    = Some ((lit "A=1" ++ [LF]) ++ (lit "B=" ++ [LF])) ∧
  last (lit "A=1" ++ [LF]) = Some LF ∧
  find_empty_keys (lit ".env") (one_file_world (lit ".env") (lit "A=1" ++ [LF] ++ lit "B=" ++ [LF]))
    = match empty_keys_of_text (lit "A=1" ++ [LF]), empty_keys_of_text (lit "B=" ++ [LF]) with
      | inl e, _ => inl e
      | inr _, inl e => inl e
      | inr E1, inr E2 =>
          inr (E1 ∪ E2, one_file_world (lit ".env") (lit "A=1" ++ [LF] ++ lit "B=" ++ [LF]))
      end.
Proof.
  assert (Hp : fs (one_file_world (lit ".env") (lit "A=1" ++ [LF] ++ lit "B=" ++ [LF]))
                 !! lit ".env" = Some ((lit "A=1" ++ [LF]) ++ (lit "B=" ++ [LF])))
    by reflexivity.
  assert (Ha : last (lit "A=1" ++ [LF]) = Some LF) by reflexivity.
  split; [exact Hp|]. split; [exact Ha|].
  exact (find_empty_keys_concat _ _ _ _ Hp Ha).
Defined.

(** ** The initializer on an existing target *)

Section InitProperties.

Variable set_iter : gset str -> list str.
Hypothesis set_iter_perm : ∀ X, set_iter X ≡ₚ elements X.

(** When the target exists and overwriting is approved (by [--approve],
    or by a first decisive answer of yes), [init_env_file] truncates the
    target and writes to it one line ["key=\n"] per key of the example
    file, each key once; no other file changes. *)
Lemma init_env_file_overwrites (a : args) (w : world) (old cx : str) (rest : list str) :
  fs w !! env_file a = Some old → fs w !! example_file a = Some cx →
  (approve a = true ∧ rest = stdin w) ∨
  (approve a = false ∧ confirm_loop (stdin w) = inr (true, rest)) →
  ∃ ks, ks ≡ₚ elements (keys_of_text cx) ∧
    init_env_file set_iter a w =
    inr (tt, mk_world (<[env_file a := concat (map key_line ks)]> (fs w)) rest
                      (trace w ++ EvOpen (env_file a) ModeW ::
                       map (fun key => EvWrite (env_file a) (key_line key)) ks)).
Proof.
  intros Henv Hex Hproceed. exists (set_iter (keys_of_text cx)).
  split; [apply set_iter_perm|].
  rewrite (init_env_file_run set_iter a w old Henv).
  destruct Hproceed as [[-> ->]|[-> Hc]].
  - by rewrite Hex.
  - unfold confirm_action. rewrite Hc. cbn [fs stdin trace]. by rewrite Hex.
Qed.

(** Reading back the file [init_env_file] writes: after an approved
    overwrite, [get_env_keys] on the target returns exactly the keys of
    the example file, and [find_empty_keys] returns them too, every value
    being empty. *)
Lemma init_env_file_round_trip (a : args) (w : world) (old cx : str) :
  fs w !! env_file a = Some old → fs w !! example_file a = Some cx →
  approve a = true ∨ (∃ rest, confirm_loop (stdin w) = inr (true, rest)) →
  ∃ w', init_env_file set_iter a w = inr (tt, w') ∧
        get_env_keys (env_file a) w' = inr (keys_of_text cx, w') ∧
        find_empty_keys (env_file a) w' = inr (keys_of_text cx, w').
Proof.
  intros Henv Hex Hproceed.
  assert (Hks : Forall file_key (set_iter (keys_of_text cx)))
    by (by apply (Forall_file_key_set_iter set_iter set_iter_perm cx)).
  rewrite (init_env_file_run set_iter a w old Henv).
  assert (∃ w1, (if approve a then inr (true, w) else confirm_action w) = inr (true, w1) ∧
                fs w1 = fs w) as (w1 & -> & Hfs).
  { destruct Hproceed as [->|[rest Hc]]; [by eexists|].
    destruct (approve a); [by eexists|].
    unfold confirm_action. rewrite Hc. by eexists. }
  rewrite Hfs, Hex. eexists. split; [done|]. split.
  - rewrite (get_env_keys_run _ _ (concat (map key_line (set_iter (keys_of_text cx)))))
      by (cbn [fs]; apply lookup_insert_eq).
    by rewrite keys_of_text_key_lines, list_to_set_set_iter.
  - rewrite (find_empty_keys_run _ _ (concat (map key_line (set_iter (keys_of_text cx)))))
      by (cbn [fs]; apply lookup_insert_eq).
    by rewrite empty_keys_of_text_key_lines, list_to_set_set_iter.
Qed.

End InitProperties.

Lemma init_env_file_overwrites_witness :
  fs sample_world !! lit ".env" = Some sample_env_text ∧
  fs sample_world !! lit ".env.example" = Some sample_example_text ∧
  ∃ ks, ks ≡ₚ elements (keys_of_text sample_example_text) ∧
    init_env_file elements (mk_args (lit ".env") (lit ".env.example") true false true)
                  sample_world =
    inr (tt, mk_world (<[lit ".env" := concat (map key_line ks)]> (fs sample_world)) []
                      (trace sample_world ++ EvOpen (lit ".env") ModeW ::
                       map (fun key => EvWrite (lit ".env") (key_line key)) ks)).
Proof.
  split; [reflexivity|]. split; [reflexivity|].
  apply (init_env_file_overwrites elements (fun X => Permutation_refl (elements X))
           (mk_args (lit ".env") (lit ".env.example") true false true) sample_world
           sample_env_text sample_example_text []).
  - reflexivity.
  - reflexivity.
  - left. split; reflexivity.
Defined.

Lemma init_env_file_round_trip_witness :
  fs sample_world !! lit ".env" = Some sample_env_text ∧
  fs sample_world !! lit ".env.example" = Some sample_example_text ∧
  ∃ w', init_env_file elements (mk_args (lit ".env") (lit ".env.example") true false true)
                      sample_world = inr (tt, w') ∧
        get_env_keys (lit ".env") w' = inr (keys_of_text sample_example_text, w') ∧
        find_empty_keys (lit ".env") w' = inr (keys_of_text sample_example_text, w').
Proof.
  split; [reflexivity|]. split; [reflexivity|].
  apply (init_env_file_round_trip elements (fun X => Permutation_refl (elements X))
           (mk_args (lit ".env") (lit ".env.example") true false true) sample_world
           sample_env_text sample_example_text).
  - reflexivity.
  - reflexivity.
  - left. reflexivity.
Defined.

(** Without [--approve], on an existing target, [init_env_file] writes
    nothing when the first decisive answer is no (it only consumes the
    input lines read), and fails with the error of [input()] when the
    input ends before a decisive answer. *)
Lemma init_env_file_declined (set_iter : gset str -> list str) (a : args) (w : world)
    (old : str) :
  approve a = false → fs w !! env_file a = Some old →
  (∀ rest, confirm_loop (stdin w) = inr (false, rest) →
           init_env_file set_iter a w = inr (tt, mk_world (fs w) rest (trace w))) ∧
  (∀ e, confirm_loop (stdin w) = inl e → init_env_file set_iter a w = inl e).
Proof.
  intros Ha Henv. rewrite (init_env_file_run set_iter a w old Henv), Ha.
  unfold confirm_action. split.
  - intros rest Hc. by rewrite Hc.
  - intros e Hc. by rewrite Hc.
Qed.

Lemma init_env_file_declined_witness :
  approve (mk_args (lit ".env") (lit ".env.example") true false false) = false ∧
  fs (mk_world (fs sample_world) [lit "No"] []) !! lit ".env" = Some sample_env_text ∧
  ((∀ rest, confirm_loop [lit "No"] = inr (false, rest) →
            init_env_file elements (mk_args (lit ".env") (lit ".env.example") true false false)
                          (mk_world (fs sample_world) [lit "No"] []) =
            inr (tt, mk_world (fs sample_world) rest [])) ∧
   (∀ e, confirm_loop [lit "No"] = inl e →
         init_env_file elements (mk_args (lit ".env") (lit ".env.example") true false false)
                       (mk_world (fs sample_world) [lit "No"] []) = inl e)).
Proof.
  split; [reflexivity|]. split; [reflexivity|].
  apply (init_env_file_declined elements
           (mk_args (lit ".env") (lit ".env.example") true false false)
           (mk_world (fs sample_world) [lit "No"] []) sample_env_text).
  - reflexivity.
  - reflexivity.
Defined.

(** ** The fixer, once and twice *)

Section FixExtras.

Variable set_iter : gset str -> list str.
Hypothesis set_iter_perm : ∀ X, set_iter X ≡ₚ elements X.

(** After a successful [fix_missing_keys env ex], the keys of the example
    file are exactly its former keys together with the keys of the env
    file; the env file reads the same, and no file other than the example
    file changes. *)
Lemma fix_missing_keys_example_keys (env ex : str) (w w' : world) :
  fix_missing_keys set_iter env ex w = inr (tt, w') →
  ∃ KE KX,
    get_env_keys env w = inr (KE, w) ∧ get_env_keys ex w = inr (KX, w) ∧
    get_env_keys env w' = inr (KE, w') ∧ get_env_keys ex w' = inr (KX ∪ KE, w') ∧
    ∀ p, p ≠ ex → fs w' !! p = fs w !! p.
Proof.
  intros H.
  destruct (fix_missing_keys_post set_iter set_iter_perm env ex w w' H)
    as (ce & cx & Henv & Hex & Henv' & Hex' & Hother & _).
  exists (keys_of_text ce), (keys_of_text cx).
  split_and!; [by apply get_env_keys_run..|done|done].
Qed.

(** Running [fix_missing_keys] a second time changes nothing: it finds no
    missing key, so it neither opens nor writes a file. *)
Lemma fix_missing_keys_idempotent (env ex : str) (w w' : world) :
  fix_missing_keys set_iter env ex w = inr (tt, w') →
  fix_missing_keys set_iter env ex w' = inr (tt, w').
Proof.
  intros H.
  destruct (fix_missing_keys_post set_iter set_iter_perm env ex w w' H)
    as (ce & cx & _ & _ & Henv' & Hex' & _ & _).
  destruct (get_env_keys_inv _ _ _ _ Hex') as (c & Hc & Hkeys & _).
  rewrite (fix_missing_keys_run set_iter env ex w' ce c Henv' Hc). cbn zeta.
  rewrite bool_decide_eq_true_2; [done|].
  unfold get_missing_keys. rewrite <- Hkeys. clear. set_solver.
Qed.

End FixExtras.

Lemma fix_missing_keys_example_keys_witness :
  fix_missing_keys elements (lit ".env") (lit ".env.example") sample_world =
    inr (tt, sample_fixed_world) ∧
  ∃ KE KX,
    get_env_keys (lit ".env") sample_world = inr (KE, sample_world) ∧
    get_env_keys (lit ".env.example") sample_world = inr (KX, sample_world) ∧
    get_env_keys (lit ".env") sample_fixed_world = inr (KE, sample_fixed_world) ∧
    get_env_keys (lit ".env.example") sample_fixed_world =
      inr (KX ∪ KE, sample_fixed_world) ∧
    ∀ p, p ≠ lit ".env.example" → fs sample_fixed_world !! p = fs sample_world !! p.
Proof.
  assert (H : fix_missing_keys elements (lit ".env") (lit ".env.example") sample_world =
              inr (tt, sample_fixed_world)) by reflexivity.
  split; [exact H|].
  exact (fix_missing_keys_example_keys elements (fun X => Permutation_refl (elements X))
           _ _ _ _ H).
Defined.

Lemma fix_missing_keys_idempotent_witness :
  fix_missing_keys elements (lit ".env") (lit ".env.example") sample_world =
    inr (tt, sample_fixed_world) ∧
  fix_missing_keys elements (lit ".env") (lit ".env.example") sample_fixed_world =
    inr (tt, sample_fixed_world).
Proof.
  assert (H : fix_missing_keys elements (lit ".env") (lit ".env.example") sample_world =
              inr (tt, sample_fixed_world)) by reflexivity.
  split; [exact H|].
  exact (fix_missing_keys_idempotent elements (fun X => Permutation_refl (elements X))
           _ _ _ _ H).
Defined.

(** ** The program *)

(** Without [--init] and [--fix], [main] only reads: when it returns, the
    world (files, input and writes) is as it was. *)
Lemma main_read_only (set_iter : gset str -> list str) (a : args) (w w' : world)
    (ws : list warning) :
  init a = false → fix_ a = false → main set_iter a w = inr (ws, w') → w' = w.
Proof.
  intros Hi Hf H. rewrite main_no_init, Hf in H by done.
  destruct (get_env_keys (env_file a) w) as [e|[KE w0]] eqn:E1; [discriminate|].
  apply get_env_keys_inv in E1 as (_ & _ & _ & ->).
  destruct (get_env_keys (example_file a) w) as [e|[KX w1]] eqn:E2; [discriminate|].
  apply get_env_keys_inv in E2 as (_ & _ & _ & ->).
  destruct (find_empty_keys (env_file a) w) as [e|[E w3]] eqn:E3; [discriminate|].
  apply find_empty_keys_inv in E3 as (_ & _ & _ & ->).
  cbv zeta in H. by injection H as _ <-.
Qed.

Lemma main_read_only_witness :
  init (mk_args (lit ".env") (lit ".env.example") false false false) = false ∧
  fix_ (mk_args (lit ".env") (lit ".env.example") false false false) = false ∧
  main elements (mk_args (lit ".env") (lit ".env.example") false false false) sample_world =
    inr ([MissingKeysWarning (lit ".env.example") {[ lit "B" ]};
          EmptyKeysWarning (lit ".env") {[ lit "B" ]}], sample_world) ∧
  sample_world = sample_world.
Proof.
  assert (H : main elements (mk_args (lit ".env") (lit ".env.example") false false false)
                sample_world =
              inr ([MissingKeysWarning (lit ".env.example") {[ lit "B" ]};
                    EmptyKeysWarning (lit ".env") {[ lit "B" ]}], sample_world))
    by reflexivity.
  split; [reflexivity|]. split; [reflexivity|]. split; [exact H|].
  exact (main_read_only elements (mk_args (lit ".env") (lit ".env.example") false false false)
           sample_world sample_world _ eq_refl eq_refl H).
Defined.

(** Whatever its flags, [main] fails with [FileNotFoundError] when there
    is no env file: [--init] does not create it (its writes happen only
    when the file exists), and [get_env_keys] then cannot open it. *)
Lemma main_missing_env_file (set_iter : gset str -> list str) (a : args) (w : world) :
  fs w !! env_file a = None → main set_iter a w = inl FileNotFoundError.
Proof.
  intros H. rewrite main_after_init.
  destruct (init a); [rewrite init_env_file_absent_target by done|]; cbv iota.
  all: rewrite main_no_init by reflexivity; cbn [env_file].
  all: by rewrite get_env_keys_missing.
Qed.

Lemma main_missing_env_file_witness :
  fs init_sample_world !! lit ".env" = None ∧
  main elements init_sample_args init_sample_world = inl FileNotFoundError.
Proof.
  assert (H : fs init_sample_world !! env_file init_sample_args = None) by reflexivity.
  split; [exact H|].
  exact (main_missing_env_file elements init_sample_args init_sample_world H).
Defined.

(** Without [--init], when both files exist but a non-blank, non-comment
    line of the env file has no [=], [main] fails with [ValueError] (raised
    by [find_empty_keys]), with or without [--fix], although [get_env_keys]
    accepted that line. *)
Lemma main_value_error (set_iter : gset str -> list str) (a : args) (w : world)
    (ce cx : str) :
  init a = false →
  fs w !! env_file a = Some ce → fs w !! example_file a = Some cx →
  (∃ l, l ∈ file_lines ce ∧ is_declaration l ∧ "="%char ∉ l) →
  main set_iter a w = inl ValueError.
Proof.
  intros Hi Henv Hex Hbad. rewrite main_no_init by done.
  rewrite (get_env_keys_run _ _ _ Henv), (get_env_keys_run _ _ _ Hex). cbv beta iota.
  destruct (fix_step_keeps_env set_iter a w ce cx Henv Hex) as (w1 & -> & Henv1).
  rewrite (find_empty_keys_run _ _ _ Henv1).
  unfold empty_keys_of_text.
  destruct (empty_keys_loop_cases ∅ (file_lines ce)) as [[-> _]|(K & _ & Hall & _)];
    [done|].
  exfalso. destruct Hbad as (l & Hin & Hd & Hn). by apply Hn, Hall.
Qed.

Lemma main_value_error_witness :
  init (mk_args (lit ".env") (lit ".env.example") false true true) = false ∧
  fs (mk_world {[ lit ".env" := lit "FOO" ++ [LF];
                  lit ".env.example" := lit "A=1" ++ [LF] ]} [] [])
    !! lit ".env" = Some (lit "FOO" ++ [LF]) ∧
  fs (mk_world {[ lit ".env" := lit "FOO" ++ [LF];
                  lit ".env.example" := lit "A=1" ++ [LF] ]} [] [])
    !! lit ".env.example" = Some (lit "A=1" ++ [LF]) ∧
  (lit "FOO" ++ [LF] ∈ file_lines (lit "FOO" ++ [LF]) ∧
   is_declaration (lit "FOO" ++ [LF]) ∧ "="%char ∉ lit "FOO" ++ [LF]) ∧
  main elements (mk_args (lit ".env") (lit ".env.example") false true true)
       (mk_world {[ lit ".env" := lit "FOO" ++ [LF];
                    lit ".env.example" := lit "A=1" ++ [LF] ]} [] []) = inl ValueError.
Proof.
  assert (Hl : lit "FOO" ++ [LF] ∈ file_lines (lit "FOO" ++ [LF]) ∧
               is_declaration (lit "FOO" ++ [LF]) ∧ "="%char ∉ lit "FOO" ++ [LF])
    by (split_and!; eval_decide).
  split; [reflexivity|]. split; [reflexivity|]. split; [reflexivity|].
  split; [exact Hl|].
  apply (main_value_error elements _ _ (lit "FOO" ++ [LF]) (lit "A=1" ++ [LF])).
  - reflexivity.
  - reflexivity.
  - reflexivity.
  - exists (lit "FOO" ++ [LF]). exact Hl.
Defined.

Section MainFix.

Variable set_iter : gset str -> list str.
Hypothesis set_iter_perm : ∀ X, set_iter X ≡ₚ elements X.

(** After a successful run of [main] with [--fix] (without [--init]),
    running it again without flags on the resulting files succeeds, leaves
    them as they are, and logs no missing-keys warning. *)
Lemma main_fix_then_no_missing_warning (a : args) (w w' : world) (ws : list warning) :
  init a = false → fix_ a = true → main set_iter a w = inr (ws, w') →
  ∃ ws', main set_iter (mk_args (env_file a) (example_file a) false false (approve a)) w' =
           inr (ws', w') ∧
         ∀ p K, MissingKeysWarning p K ∉ ws'.
Proof.
  intros Hi Hf H. rewrite main_no_init, Hf in H by done.
  destruct (get_env_keys (env_file a) w) as [e|[KE w0]] eqn:E1; [discriminate|].
  apply get_env_keys_inv in E1 as (ce & Henv & -> & ->).
  destruct (get_env_keys (example_file a) w) as [e|[KX w1]] eqn:E2; [discriminate|].
  apply get_env_keys_inv in E2 as (cx & Hex & -> & ->).
  destruct (fix_missing_keys set_iter (env_file a) (example_file a) w)
    as [e|[[] w2]] eqn:E3; [discriminate|].
  destruct (find_empty_keys (env_file a) w2) as [e|[E w3]] eqn:E4; [discriminate|].
  apply find_empty_keys_inv in E4 as (c2 & Henv2 & HE & ->).
  cbv zeta in H. injection H as _ <-.
  destruct (fix_missing_keys_post set_iter set_iter_perm _ _ w w2 E3)
    as (ce' & cx' & Henv' & Hex' & Henv2' & Hex2 & _ & _).
  rewrite Henv in Henv'. injection Henv' as <-.
  rewrite Hex in Hex'. injection Hex' as <-.
  rewrite Henv2 in Henv2'. injection Henv2' as ->.
  rewrite main_no_init by reflexivity. cbn [env_file example_file fix_].
  rewrite (get_env_keys_run _ _ _ Henv2), Hex2. cbv beta iota.
  rewrite (find_empty_keys_run _ _ _ Henv2), HE. cbv beta iota zeta.
  eexists. split; [reflexivity|].
  rewrite bool_decide_eq_true_2.
  - intros p K. case_bool_decide; set_solver.
  - unfold get_missing_keys. clear. set_solver.
Qed.

End MainFix.

Lemma main_fix_then_no_missing_warning_witness :
  init (mk_args (lit ".env") (lit ".env.example") false true false) = false ∧
  fix_ (mk_args (lit ".env") (lit ".env.example") false true false) = true ∧
  main elements (mk_args (lit ".env") (lit ".env.example") false true false) sample_world =
    inr ([MissingKeysWarning (lit ".env.example") {[ lit "B" ]};
          EmptyKeysWarning (lit ".env") {[ lit "B" ]}], sample_fixed_world) ∧
  ∃ ws', main elements (mk_args (lit ".env") (lit ".env.example") false false false)
              sample_fixed_world = inr (ws', sample_fixed_world) ∧
         ∀ p K, MissingKeysWarning p K ∉ ws'.
Proof.
  assert (H : main elements (mk_args (lit ".env") (lit ".env.example") false true false)
                sample_world =
              inr ([MissingKeysWarning (lit ".env.example") {[ lit "B" ]};
                    EmptyKeysWarning (lit ".env") {[ lit "B" ]}], sample_fixed_world))
    by reflexivity.
  split; [reflexivity|]. split; [reflexivity|]. split; [exact H|].
  exact (main_fix_then_no_missing_warning elements (fun X => Permutation_refl (elements X))
           (mk_args (lit ".env") (lit ".env.example") false true false)
           sample_world sample_fixed_world _ eq_refl eq_refl H).
Defined.

Section MainInitExtra.

Variable set_iter : gset str -> list str.
Hypothesis set_iter_perm : ∀ X, set_iter X ≡ₚ elements X.

(** [main] with [--init --approve], when the env file and the example file
    exist: it succeeds (with or without [--fix]), logs no missing-keys
    warning, and its empty-value warning lists every key of the example
    file (it is logged unless the example file has no key). *)
Lemma main_init_approve (a : args) (w : world) (old cx : str) :
  init a = true → approve a = true →
  fs w !! env_file a = Some old → fs w !! example_file a = Some cx →
  ∃ w', main set_iter a w =
        inr ((if bool_decide (keys_of_text cx = ∅) then []
              else [EmptyKeysWarning (env_file a) (keys_of_text cx)]), w').
Proof.
  intros Hi Ha Henv Hex.
  assert (Hks : Forall file_key (set_iter (keys_of_text cx)))
    by (by apply (Forall_file_key_set_iter set_iter set_iter_perm cx)).
  rewrite main_after_init, Hi, (init_env_file_run set_iter a w old Henv), Ha, Hex.
  cbv iota.
  set (L := concat (map key_line (set_iter (keys_of_text cx)))).
  set (w1 := mk_world (<[env_file a := L]> (fs w)) (stdin w)
               (trace w ++ EvOpen (env_file a) ModeW ::
                map (fun key => EvWrite (env_file a) (key_line key))
                    (set_iter (keys_of_text cx)))).
  assert (HL : fs w1 !! env_file a = Some L) by apply lookup_insert_eq.
  assert (HkL : keys_of_text L = keys_of_text cx)
    by (unfold L; by rewrite keys_of_text_key_lines, list_to_set_set_iter).
  assert (∃ cx1, fs w1 !! example_file a = Some cx1 ∧ keys_of_text cx1 = keys_of_text cx)
    as (cx1 & Hex1 & Hk1).
  { destruct (decide (env_file a = example_file a)) as [<-|Hne].
    - by exists L.
    - exists cx. split; [|done]. cbn [w1 fs]. by rewrite lookup_insert_ne. }
  rewrite main_no_init by reflexivity. cbn [env_file example_file fix_].
  rewrite (get_env_keys_run _ _ _ HL), (get_env_keys_run _ _ _ Hex1). cbv beta iota.
  assert (Hfix : (if fix_ a then fix_missing_keys set_iter (env_file a) (example_file a) w1
                  else inr (tt, w1)) = inr (tt, w1)).
  { destruct (fix_ a); [|done].
    rewrite (fix_missing_keys_run set_iter _ _ w1 L cx1 HL Hex1). cbn zeta.
    rewrite bool_decide_eq_true_2; [done|].
    unfold get_missing_keys. rewrite HkL, Hk1. apply difference_diag_L. }
  rewrite Hfix. cbv beta iota.
  rewrite (find_empty_keys_run _ _ _ HL).
  unfold L. rewrite empty_keys_of_text_key_lines, list_to_set_set_iter by done.
  fold L. cbv beta iota zeta.
  rewrite HkL, Hk1, bool_decide_eq_true_2 by apply difference_diag_L.
  by eexists.
Qed.

End MainInitExtra.

Lemma main_init_approve_witness :
  init (mk_args (lit ".env") (lit ".env.example") true true true) = true ∧
  approve (mk_args (lit ".env") (lit ".env.example") true true true) = true ∧
  fs sample_world !! lit ".env" = Some sample_env_text ∧
  fs sample_world !! lit ".env.example" = Some sample_example_text ∧
  ∃ w', main elements (mk_args (lit ".env") (lit ".env.example") true true true) sample_world =
        inr ((if bool_decide (keys_of_text sample_example_text = ∅) then []
              else [EmptyKeysWarning (lit ".env") (keys_of_text sample_example_text)]), w').
Proof.
  split; [reflexivity|]. split; [reflexivity|]. split; [reflexivity|].
  split; [reflexivity|].
  apply (main_init_approve elements (fun X => Permutation_refl (elements X))
           (mk_args (lit ".env") (lit ".env.example") true true true) sample_world
           sample_env_text sample_example_text).
  - reflexivity.
  - reflexivity.
  - reflexivity.
  - reflexivity.
Defined.
